(** * cli.hpp: a command line interpreter dispatching on [argv[1]]

    The development embeds [command_base] and [commandlineinterpreter] of
    [cli.hpp] (instantiated at [_Elem = char]) and states the dispatch,
    help, argument access and clean-up properties of the interpreter.

    Commands live on a heap and the interpreter stores raw pointers to
    them, exactly as [std::vector<command_ptr> commands_] does, so that
    [clear()] (which deletes the objects and overwrites the entries with
    [nullptr]) and every later dereference can be followed faithfully. *)

From Stdlib Require Import ZArith Lia Ascii DecimalString DecimalPos DecimalZ.
From stdpp Require Import base option list list_numbers strings gmap.

Local Open Scope Z_scope.

(** ** Values, pointers and outcomes *)

(** [int] on the platforms the header targets is 32 bits wide. *)
Definition INT_MIN : Z := - 2 ^ 31.
Definition INT_MAX : Z := 2 ^ 31 - 1.

(** The line feed written by ["\n"] and by [std::endl]. *)
Definition nl : string := String (Ascii.ascii_of_nat 10) EmptyString.

(** Addresses of heap-allocated commands; [None] is [nullptr]. *)
Abbreviation loc := positive.
Abbreviation command_ptr := (option loc).
Definition nullptr : command_ptr := None.

(** The exceptions of [<stdexcept>] raised by the [std::sto*] family. *)
Inductive exception : Type :=
  | invalid_argument
  | out_of_range.

(** How a call ends: it returns, it throws, or it runs into undefined
    behaviour (null or dangling dereference, read past [argv], delete of
    a command through its base pointer, signed overflow). *)
Inductive outcome (A : Type) : Type :=
  | Ok (a : A)
  | Throw (e : exception)
  | Fault.
Arguments Ok {A} a.
Arguments Throw {A} e.
Arguments Fault {A}.

Definition outcome_map {A B : Type} (f : A → B) (o : outcome A) : outcome B :=
  match o with
  | Ok a => Ok (f a)
  | Throw e => Throw e
  | Fault => Fault
  end.

Global Instance outcome_ret : MRet outcome := λ A a, Ok a.
Global Instance outcome_bind : MBind outcome := λ A B f o,
  match o with
  | Ok a => f a
  | Throw e => Throw e
  | Fault => Fault
  end.

(** What an observer of the interpreter sees: text written with [printf],
    text written to [select_cout<char>::cout], and the two virtual calls
    whose arguments matter, [argumentName(i)] and [run(this)]. *)
Inductive event : Type :=
  | Printf (s : string)
  | Cout (s : string)
  | CallArgumentName (c : loc) (index : Z)
  | CallRun (c : loc).

(** Computations of the interpreter: the events so far and how it ended. *)
Record M (A : Type) : Type := MkM { trace : list event; result : outcome A }.
Arguments MkM {A} trace result.
Arguments trace {A} m.
Arguments result {A} m.

Global Instance M_ret : MRet M := λ A a, MkM [] (Ok a).
Global Instance M_bind : MBind M := λ A B f m,
  match result m with
  | Ok a => MkM (trace m ++ trace (f a)) (result (f a))
  | Throw e => MkM (trace m) (Throw e)
  | Fault => MkM (trace m) Fault
  end.

Definition emit (e : event) : M unit := MkM [e] (Ok tt).
Definition lift {A : Type} (o : outcome A) : M A := MkM [] o.

(** ** The interpreter's fields and the command interface *)

(** [commands_], [argc_] and [argv_]; [argv_] holds the C strings the
    process was started with, so reading at or past its end is a fault. *)
Record commandlineinterpreter : Type := {
  commands_ : list command_ptr;
  argc_ : Z;
  argv_ : list string
}.

(** [command_base<char>]: the four pure virtual members. [command()],
    [argumentCount()] and [argumentName(i)] are getters; [run(pInterpreter)]
    reads the interpreter it is handed and returns, or throws. *)
Module command_base.
Record t : Type := {
  command : string;
  argumentCount : Z;
  argumentName : Z → string;
  run : commandlineinterpreter → outcome bool
}.
End command_base.

(** The heap of live command objects. *)
Abbreviation heap := (gmap loc command_base.t).

(** [*p] for a [command_ptr]: defined only on the address of a live object. *)
Definition deref (h : heap) (p : command_ptr) : outcome (loc * command_base.t) :=
  match p with
  | None => Fault
  | Some l =>
      match h !! l with
      | Some c => Ok (l, c)
      | None => Fault
      end
  end.

(** [argv_[i]]. *)
Definition read_argv (it : commandlineinterpreter) (i : Z) : outcome string :=
  if (i <? 0) || (INT_MAX <? i) then Fault
  else match argv_ it !! Z.to_nat i with
       | Some s => Ok s
       | None => Fault
       end.

(** ** <string>: [std::stoi] with its default base 10

    [std::stoi(str)] calls [strtol(str.c_str(), &end, 10)]: white space is
    skipped, an optional sign is read, then the longest run of decimal
    digits; what follows the digits is left unread. It throws
    [std::invalid_argument] when no digit was read and [std::out_of_range]
    when the value does not fit an [int]. *)

Definition isspace (c : Ascii.ascii) : bool :=
  let n := Z.of_N (Ascii.N_of_ascii c) in (n =? 32) || ((9 <=? n) && (n <=? 13)).

Definition isdigit (c : Ascii.ascii) : bool :=
  let n := Z.of_N (Ascii.N_of_ascii c) in (48 <=? n) && (n <=? 57).

Definition digit_value (c : Ascii.ascii) : Z := Z.of_N (Ascii.N_of_ascii c) - 48.

Fixpoint skip_spaces (s : string) : string :=
  match s with
  | String c r => if isspace c then skip_spaces r else s
  | EmptyString => s
  end.

(** The value of the leading digits of [s], continuing from [acc]. *)
Fixpoint read_digits (acc : Z) (s : string) : Z :=
  match s with
  | String c r => if isdigit c then read_digits (acc * 10 + digit_value c) r else acc
  | EmptyString => acc
  end.

Definition issign (c : Ascii.ascii) : bool :=
  Ascii.eqb c "-" || Ascii.eqb c "+".

(** [strtol] in base 10 on unbounded integers; [None]: no conversion. *)
Definition strtol (s : string) : option Z :=
  let s1 := skip_spaces s in
  let '(negative, s2) :=
    match s1 with
    | String c r => if issign c then (Ascii.eqb c "-", r) else (false, s1)
    | EmptyString => (false, s1)
    end in
  match s2 with
  | String c _ =>
      if isdigit c
      then Some (if negative : bool then - read_digits 0 s2 else read_digits 0 s2)
      else None
  | EmptyString => None
  end.

Definition stoi (s : string) : outcome Z :=
  match strtol s with
  | None => Throw invalid_argument
  | Some v => if (INT_MIN <=? v) && (v <=? INT_MAX) then Ok v else Throw out_of_range
  end.

(** ** <algorithm> *)

(** [std::find_if]: the returned iterator is the remaining range starting
    at the first element satisfying [pred]; the empty range is [end()]. *)
Fixpoint find_if {A : Type} (pred : A → M bool) (l : list A) : M (list A) :=
  match l with
  | [] => mret []
  | x :: l' => b ← pred x; if b : bool then mret (x :: l') else find_if pred l'
  end.

(** [std::for_each] with a callable that reads its element. *)
Fixpoint for_each {A : Type} (f : A → M unit) (l : list A) : M unit :=
  match l with
  | [] => mret tt
  | x :: l' => f x ;; for_each f l'
  end.

(** ** Member functions of [commandlineinterpreter] *)

(** [register_command]: [commands_.push_back(pCommand)]. *)
Definition register_command (pCommand : command_ptr)
    (it : commandlineinterpreter) : commandlineinterpreter :=
  {| commands_ := commands_ it ++ [pCommand];
     argc_ := argc_ it;
     argv_ := argv_ it |}.

(** [get<int>(index)]: [std::stoi(argv_[index + 2])]. *)
Definition get_int (it : commandlineinterpreter) (index : Z) : outcome Z :=
  s ← read_argv it (index + 2); stoi s.

(** [delete c] with [c] of type [command_base<char>*]: a no-op on
    [nullptr] and undefined on every other pointer. [command_base] is
    abstract and declares no virtual destructor, so a live command is an
    object of a derived class deleted through a pointer to its base, which
    is undefined; an address that holds no object (any more) is a dangling
    pointer. *)
Definition delete_command (h : heap) (c : command_ptr) : outcome heap :=
  match c with
  | None => Ok h
  | Some l =>
      match h !! l with
      | Some _ => Fault
      | None => Fault
      end
  end.

(** The [std::for_each] of [clear()], whose lambda takes its element by
    reference: [delete c; c = nullptr;]. The vector keeps its size. *)
Fixpoint clear_entries (h : heap) (cs : list command_ptr)
    : outcome (heap * list command_ptr) :=
  match cs with
  | [] => Ok (h, [])
  | c :: cs' =>
      h1 ← delete_command h c;
      '(h2, cs2) ← clear_entries h1 cs';
      mret (h2, nullptr :: cs2)
  end.

(** [clear()]. *)
Definition clear (h : heap) (it : commandlineinterpreter)
    : outcome (heap * commandlineinterpreter) :=
  '(h', cs') ← clear_entries h (commands_ it);
  mret (h', {| commands_ := cs'; argc_ := argc_ it; argv_ := argv_ it |}).

(** The interpreter once the assignments [c = nullptr] of [clear()] have
    gone over the registry: as many entries as before, all of them null. *)
Definition nulled (it : commandlineinterpreter) : commandlineinterpreter :=
  {| commands_ := replicate (length (commands_ it)) nullptr;
     argc_ := argc_ it;
     argv_ := argv_ it |}.

(** The constructor, and the interpreter [main] builds from its [argv]. *)
Definition new_interpreter (argc : Z) (argv : list string) : commandlineinterpreter :=
  {| commands_ := []; argc_ := argc; argv_ := argv |}.

Definition main_interpreter (argv : list string) : commandlineinterpreter :=
  new_interpreter (Z.of_nat (length argv)) argv.

Section interpreter.
(** The expansions of [__DATE__] and [__TIME__] in the translation unit. *)
Variables (DATE TIME : string).

Definition cout (s : string) : M unit := emit (Cout s).
Definition endl : M unit := emit (Cout nl).
Definition printf (s : string) : M unit := emit (Printf s).

(** The body of the lambda in [help()]: one line per command. The loop
    runs [i] over [0 .. argumentCount() - 1]; [argumentCount()] is a
    getter, so every test of the loop sees the same bound. *)
Definition help_line (h : heap) (c : command_ptr) : M unit :=
  '(l, o) ← lift (deref h c);
  cout (command_base.command o) ;; cout " " ;;
  for_each (λ i : Z,
      cout "<" ;;
      emit (CallArgumentName l i) ;;
      cout (command_base.argumentName o i) ;;
      cout "> ")
    (seqZ 0 (command_base.argumentCount o)) ;;
  endl.

(** [help()]. *)
Definition help (h : heap) (it : commandlineinterpreter) : M unit :=
  cout "built " ;; cout DATE ;; cout " " ;; cout TIME ;; endl ;; endl ;;
  cout "Commands:" ;; endl ;;
  for_each (help_line h) (commands_ it).

(** The predicate handed to [std::find_if] in [run()]:
    [c->command().compare(command) == 0]. *)
Definition matches (h : heap) (command : string) (c : command_ptr) : M bool :=
  '(_, o) ← lift (deref h c);
  mret (String.eqb (command_base.command o) command).

(** [run()]. *)
Definition run (h : heap) (it : commandlineinterpreter) : M Z :=
  if argc_ it <? 2 then
    help h it ;; mret 1
  else
    let argc := argc_ it - 2 in
    command ← lift (read_argv it 1);
    itr ← find_if (matches h command) (commands_ it);
    let pCommand := match itr with c :: _ => c | [] => nullptr end in
    match pCommand with
    | None =>
        printf ("Unknown command: " +:+ command +:+ nl) ;;
        help h it ;; mret 1
    | Some _ =>
        '(l, o) ← lift (deref h pCommand);
        if negb (command_base.argumentCount o =? argc) then
          printf ("Wrong number of arguments for command: " +:+ command +:+ nl) ;;
          help h it ;; mret 1
        else
          emit (CallRun l) ;;
          b ← lift (command_base.run o it);
          if b : bool then mret 0 else mret 1
    end.
End interpreter.

Global Arguments help : simpl never.
Global Arguments run : simpl never.

(** ** Notions the properties are stated with *)

(** The commands whose [run] was entered, in order. *)
Definition invoked (t : list event) : list loc :=
  omap (λ e, match e with CallRun l => Some l | _ => None end) t.

(** The diagnostic lines, which the interpreter writes with [printf]. *)
Definition diagnostics (t : list event) : list string :=
  omap (λ e, match e with Printf s => Some s | _ => None end) t.

(** The text that reached [cout]. *)
Definition cout_text (t : list event) : string :=
  foldr (λ e acc, match e with Cout s => s +:+ acc | _ => acc end) EmptyString t.

(** Entry [k] of the registry points to the live command [c] at [l]. *)
Definition registered (h : heap) (it : commandlineinterpreter)
    (k : nat) (l : loc) (c : command_base.t) : Prop :=
  commands_ it !! k = Some (Some l) ∧ h !! l = Some c.

(** Every entry of the registry points to a live command. *)
Definition live (h : heap) (it : commandlineinterpreter) : Prop :=
  ∀ k p, commands_ it !! k = Some p → ∃ l c, p = Some l ∧ h !! l = Some c.

(** No two entries of the registry carry the same name. *)
Definition unique_names (h : heap) (it : commandlineinterpreter) : Prop :=
  ∀ k1 k2 l1 l2 c1 c2,
    registered h it k1 l1 c1 → registered h it k2 l2 c2 →
    command_base.command c1 = command_base.command c2 → k1 = k2.

(** Entry [k] is the first one named [name]; the entries before it are
    live commands with other names. *)
Definition first_match (h : heap) (it : commandlineinterpreter) (name : string)
    (k : nat) (l : loc) (c : command_base.t) : Prop :=
  registered h it k l c ∧ command_base.command c = name ∧
  ∀ j p, (j < k)%nat → commands_ it !! j = Some p →
    ∃ l' c', p = Some l' ∧ h !! l' = Some c' ∧ command_base.command c' ≠ name.

(** The registry read through the heap, in registration order. *)
Definition registry (h : heap) (it : commandlineinterpreter)
    : list (loc * command_base.t) :=
  omap (λ p : command_ptr, l ← p; c ← h !! l; Some (l, c)) (commands_ it).

(** The help listing, as text. *)
Definition help_text_line (c : command_base.t) : string :=
  command_base.command c +:+ " " +:+
  foldr (λ i acc, "<" +:+ command_base.argumentName c i +:+ "> " +:+ acc)
    EmptyString (seqZ 0 (command_base.argumentCount c)) +:+
  nl.

Definition help_text (DATE TIME : string) (cs : list command_base.t) : string :=
  "built " +:+ DATE +:+ " " +:+ TIME +:+ nl +:+ nl +:+ "Commands:" +:+ nl +:+
  foldr (λ c acc, help_text_line c +:+ acc) EmptyString cs.

(** The events of the help listing. *)

Definition label_events (l : loc) (c : command_base.t) (i : Z) : list event :=
  [Cout "<"; CallArgumentName l i; Cout (command_base.argumentName c i); Cout "> "].

Definition line_events (lc : loc * command_base.t) : list event :=
  Cout (command_base.command lc.2) :: Cout " " ::
  (seqZ 0 (command_base.argumentCount lc.2) ≫= label_events lc.1 lc.2) ++ [Cout nl].

Definition header_events (DATE TIME : string) : list event :=
  [Cout "built "; Cout DATE; Cout " "; Cout TIME; Cout nl; Cout nl;
   Cout "Commands:"; Cout nl].

(** Words for the shape of an argument. *)
Fixpoint all_of (P : Ascii.ascii → bool) (s : string) : bool :=
  match s with
  | String c r => P c && all_of P r
  | EmptyString => true
  end.

Definition head_is (P : Ascii.ascii → bool) (s : string) : bool :=
  match s with
  | String c _ => P c
  | EmptyString => false
  end.

(** A numeric string: an optional sign, then one or more decimal digits,
    and nothing else. *)
Definition numeric (s : string) : bool :=
  let body := match s with
              | String c r => if issign c then r else s
              | EmptyString => s
              end in
  head_is isdigit body && all_of isdigit body.

(** The number a string of decimal digits denotes. *)
Fixpoint decimal (s : string) : Z :=
  match s with
  | String c r => digit_value c * 10 ^ Z.of_nat (String.length r) + decimal r
  | EmptyString => 0
  end.

(** The number denoted by a sign and digits. *)
Definition signed (sg ds : string) : Z :=
  if String.eqb sg "-" then - decimal ds else decimal ds.

(** What [std::stoi] makes of digits [ds] read after the sign [sg]. *)
Definition converted (sg ds : string) : outcome Z :=
  if String.eqb ds EmptyString then Throw invalid_argument
  else if (INT_MIN <=? signed sg ds) && (signed sg ds <=? INT_MAX)
       then Ok (signed sg ds)
       else Throw out_of_range.

(** ** A sample application *)

(** [add x y]: reads both arguments as [int], adds them, reports success. *)
Definition add_command : command_base.t :=
  {| command_base.command := "add";
     command_base.argumentCount := 2;
     command_base.argumentName := λ i, if i =? 0 then "x" else "y";
     command_base.run := λ it,
       x ← get_int it 0; y ← get_int it 1; let sum := x + y in mret true |}.

(** A command without arguments that reports [ok]. *)
Definition plain_command (name : string) (ok : bool) : command_base.t :=
  {| command_base.command := name;
     command_base.argumentCount := 0;
     command_base.argumentName := λ _, EmptyString;
     command_base.run := λ _, Ok ok |}.

Definition add_heap : heap := {[ 1%positive := add_command ]}.

Definition add_interpreter (argv : list string) : commandlineinterpreter :=
  register_command (Some 1%positive) (main_interpreter argv).

(** Three commands, two of them with the same name. *)
Definition shadow_heap : heap :=
  {[ 1%positive := plain_command "Add" false;
     2%positive := plain_command "add" true;
     3%positive := plain_command "add" false ]}.

Definition shadow_interpreter (argv : list string) : commandlineinterpreter :=
  register_command (Some 3%positive)
    (register_command (Some 2%positive)
       (register_command (Some 1%positive) (main_interpreter argv))).

Definition tool_heap : heap :=
  {[ 1%positive := add_command; 2%positive := plain_command "version" true ]}.

Definition tool_interpreter (argv : list string) : commandlineinterpreter :=
  register_command (Some 2%positive)
    (register_command (Some 1%positive) (main_interpreter argv)).


Ltac registry_entry H :=
  vm_compute in H;
  repeat match type of H with
         | context [match ?k with O => _ | S _ => _ end] => destruct k
         end;
  simplify_eq.

Ltac live_registry :=
  let k := fresh "k" in let p := fresh "p" in let H := fresh "H" in
  intros k p H; registry_entry H; (by eexists _, _).

(** ** The remaining members: the other [get<T>] and the destructor *)

(** [std::stol] for a [long] of [LONG_BITS] bits (32 with LLP64, 64 with
    LP64): the syntax of [std::stoi], the range of [long]. *)
Definition stol (LONG_BITS : Z) (s : string) : outcome Z :=
  match strtol s with
  | None => Throw invalid_argument
  | Some v =>
      if (- 2 ^ (LONG_BITS - 1) <=? v) && (v <=? 2 ^ (LONG_BITS - 1) - 1)
      then Ok v else Throw out_of_range
  end.

(** [strtoul] reads the same syntax; a value of more than [bits] bits is
    [ERANGE], and after a minus sign the value is negated in the unsigned
    type, that is modulo [2 ^ bits]. *)
Definition strtoul (bits : Z) (s : string) : outcome Z :=
  match strtol s with
  | None => Throw invalid_argument
  | Some v =>
      if Z.abs v <=? 2 ^ bits - 1 then Ok (v mod 2 ^ bits) else Throw out_of_range
  end.

(** [get<long>(index)]: [std::stol(argv_[index + 2])]. *)
Definition get_long (LONG_BITS : Z) (it : commandlineinterpreter) (index : Z)
    : outcome Z :=
  s ← read_argv it (index + 2); stol LONG_BITS s.

(** [get<unsigned long>(index)]: [std::stoul(argv_[index + 2])]. *)
Definition get_unsigned_long (LONG_BITS : Z) (it : commandlineinterpreter)
    (index : Z) : outcome Z :=
  s ← read_argv it (index + 2); strtoul LONG_BITS s.

(** [get<unsigned long long>(index)]: [std::stoull(argv_[index + 2])];
    [unsigned long long] has 64 bits. *)
Definition get_unsigned_long_long (it : commandlineinterpreter) (index : Z)
    : outcome Z :=
  s ← read_argv it (index + 2); strtoul 64 s.

(** [operator>>] of an input stream into a [std::string]: white space is
    skipped, then characters are taken up to the next white space or the
    end. When nothing is left the stream fails and the string stays empty. *)
Fixpoint take_word (s : string) : string :=
  match s with
  | String c r => if isspace c then EmptyString else String c (take_word r)
  | EmptyString => EmptyString
  end.

(** The primary template [get<T>(index)] at [T = std::string]:
    [T value; std::basic_istringstream<char>(argv_[index + 2]) >> value;
    return value;]. The state of the stream is not looked at. *)
Definition get_string (it : commandlineinterpreter) (index : Z) : outcome string :=
  s ← read_argv it (index + 2); mret (take_word (skip_spaces s)).

(** The shape of every [get<T>(index)]: a conversion applied to
    [argv_[index + 2]]. The conversion is [std::stoi], [std::stol],
    [std::stoul], [std::stoull], [std::stof], [std::stod] or [std::stold]
    in the specialisations and the extraction from a string stream in the
    primary template. *)
Definition get_with {A : Type} (convert : string → outcome A)
    (it : commandlineinterpreter) (index : Z) : outcome A :=
  s ← read_argv it (index + 2); convert s.

(** [~commandlineinterpreter()]: [clear()]; what is left is the heap. *)
Definition destructor (h : heap) (it : commandlineinterpreter) : outcome heap :=
  '(h', _) ← clear h it; mret h'.

(** The decimal text of an integer, as [std::to_string] and [printf("%d")]
    write it. *)
Definition to_string (z : Z) : string :=
  DecimalString.NilZero.string_of_int (Z.to_int z).

(** ** The monad of traces *)

Lemma M_eta {A : Type} (m : M A) : MkM (trace m) (result m) = m.
Proof. by destruct m. Qed.

Lemma bind_Ok {A B : Type} (m : M A) (f : A → M B) (a : A) :
  result m = Ok a → m ≫= f = MkM (trace m ++ trace (f a)) (result (f a)).
Proof. intros Hm. unfold mbind, M_bind. by rewrite Hm. Qed.

Lemma bind_lift_Ok {A B : Type} (a : A) (f : A → M B) : lift (Ok a) ≫= f = f a.
Proof. unfold mbind, M_bind. simpl. apply M_eta. Qed.

Lemma bind_emit {B : Type} (e : event) (f : unit → M B) :
  emit e ≫= f = MkM (e :: trace (f tt)) (result (f tt)).
Proof. reflexivity. Qed.

Lemma result_bind_Fault {A B : Type} (m : M A) (f : A → M B) :
  result m = Fault → result (m ≫= f) = Fault.
Proof. intros Hm. unfold mbind, M_bind. by rewrite Hm. Qed.

Lemma result_bind_emit {B : Type} (e : event) (f : unit → M B) :
  result (emit e ≫= f) = result (f tt).
Proof. reflexivity. Qed.

Lemma trace_bind_elem {A B : Type} (m : M A) (f : A → M B) (e : event) :
  e ∈ trace (m ≫= f) → e ∈ trace m ∨ ∃ a, result m = Ok a ∧ e ∈ trace (f a).
Proof.
  unfold mbind, M_bind. destruct (result m) as [a| |] eqn:Hm; simpl.
  - rewrite elem_of_app. intros [?|?]; [by left | right; eauto].
  - by left.
  - by left.
Qed.

Lemma for_each_elem {A : Type} (f : A → M unit) (l : list A) (e : event) :
  e ∈ trace (for_each f l) → ∃ x, x ∈ l ∧ e ∈ trace (f x).
Proof.
  induction l as [|x l IH]; simpl.
  - by intros ?%elem_of_nil.
  - intros [He | (_ & _ & He)]%trace_bind_elem.
    + exists x. split; [left | done].
    + destruct (IH He) as (y & Hy & Hy'). exists y. split; [by right | done].
Qed.

Lemma for_each_Ok {A : Type} (f : A → M unit) (l : list A) :
  (∀ x, x ∈ l → result (f x) = Ok tt) →
  for_each f l = MkM (l ≫= λ x, trace (f x)) (Ok tt).
Proof.
  induction l as [|x l IH]; intros Hl; [done|].
  simpl. rewrite (bind_Ok _ _ tt) by (apply Hl; left).
  rewrite IH by (intros y Hy; apply Hl; by right). done.
Qed.

Lemma string_app_assoc (a b c : string) : (a +:+ b) +:+ c = a +:+ b +:+ c.
Proof.
  induction a as [|x a IH]; [done|].
  change (String x ((a +:+ b) +:+ c) = String x (a +:+ b +:+ c)). by rewrite IH.
Qed.

Lemma cout_text_app (t1 t2 : list event) :
  cout_text (t1 ++ t2) = cout_text t1 +:+ cout_text t2.
Proof.
  induction t1 as [|e t1 IH]; simpl; [done|].
  destruct e; rewrite IH; by rewrite ?string_app_assoc.
Qed.

Lemma diagnostics_app (t1 t2 : list event) :
  diagnostics (t1 ++ t2) = diagnostics t1 ++ diagnostics t2.
Proof. apply omap_app. Qed.

Lemma invoked_app (t1 t2 : list event) :
  invoked (t1 ++ t2) = invoked t1 ++ invoked t2.
Proof. apply omap_app. Qed.

Lemma string_app_cons (c : Ascii.ascii) (a b : string) :
  String c a +:+ b = String c (a +:+ b).
Proof. reflexivity. Qed.

Lemma string_app_nil (b : string) : EmptyString +:+ b = b.
Proof. reflexivity. Qed.

Lemma string_app_nil_r (s : string) : s +:+ EmptyString = s.
Proof.
  induction s as [|c s IH]; [done|]. rewrite string_app_cons. by rewrite IH.
Qed.

(** ** The help listing *)

Section help_facts.
Variables (DATE TIME : string).

Lemma help_line_live (h : heap) (l : loc) (c : command_base.t) :
  h !! l = Some c → help_line h (Some l) = MkM (line_events (l, c)) (Ok tt).
Proof.
  intros Hl. unfold help_line, deref. rewrite Hl, bind_lift_Ok.
  unfold cout, endl. rewrite !bind_emit.
  rewrite for_each_Ok by done.
  unfold line_events, label_events. simpl. do 3 f_equal.
Qed.

Lemma registry_live (h : heap) (it : commandlineinterpreter) :
  live h it → commands_ it = (λ lc, Some lc.1) <$> registry h it.
Proof.
  unfold live, registry. induction (commands_ it) as [|p cs IH]; intros Hlive; [done|].
  destruct (Hlive 0%nat p eq_refl) as (l & c & -> & Hl).
  simpl. rewrite Hl. simpl. f_equal. apply IH. intros k q. apply (Hlive (S k)).
Qed.

Lemma registry_lookup (h : heap) (it : commandlineinterpreter) lc :
  lc ∈ registry h it → h !! lc.1 = Some lc.2 ∧ Some lc.1 ∈ commands_ it.
Proof.
  unfold registry. rewrite list_elem_of_omap. intros (p & Hp & Hlc).
  destruct p as [l|]; [|done]. simpl in Hlc.
  destruct (h !! l) as [c|] eqn:Hl; [|done]. by simplify_eq/=.
Qed.

Lemma for_each_help_line (h : heap) (r : list (loc * command_base.t)) :
  (∀ lc, lc ∈ r → h !! lc.1 = Some lc.2) →
  for_each (help_line h) ((λ lc, Some lc.1) <$> r)
  = MkM (r ≫= line_events) (Ok tt).
Proof.
  induction r as [|[l c] r IH]; intros Hr; [done|].
  csimpl. rewrite (help_line_live h l c) by (apply (Hr (l, c)); left).
  rewrite (bind_Ok _ _ tt) by done. csimpl.
  rewrite IH by (intros lc Hlc; apply Hr; by right). done.
Qed.

Lemma help_live (h : heap) (it : commandlineinterpreter) :
  live h it →
  help DATE TIME h it
  = MkM (header_events DATE TIME ++ (registry h it ≫= line_events)) (Ok tt).
Proof.
  intros Hlive. unfold help, cout, endl. rewrite !bind_emit. simpl.
  assert (for_each (help_line h) (commands_ it)
          = MkM (registry h it ≫= line_events) (Ok tt)) as ->; [|done].
  rewrite (registry_live _ _ Hlive) at 1. apply for_each_help_line.
  intros lc Hlc. by apply registry_lookup in Hlc as [? _].
Qed.

Lemma cout_text_labels (l : loc) (c : command_base.t) (s : list Z) :
  cout_text (s ≫= label_events l c)
  = foldr (λ i acc, "<" +:+ command_base.argumentName c i +:+ "> " +:+ acc)
      EmptyString s.
Proof.
  induction s as [|i s IH]; [done|].
  change ((i :: s) ≫= label_events l c)
    with (label_events l c i ++ (s ≫= label_events l c)).
  rewrite cout_text_app, IH. unfold label_events. csimpl.
  by rewrite !string_app_assoc.
Qed.

Lemma cout_text_line (lc : loc * command_base.t) :
  cout_text (line_events lc) = help_text_line lc.2.
Proof.
  unfold line_events, help_text_line.
  change (cout_text (Cout ?a :: Cout ?b :: ?t)) with (a +:+ b +:+ cout_text t).
  rewrite cout_text_app, cout_text_labels. done.
Qed.

Lemma cout_text_lines (r : list (loc * command_base.t)) :
  cout_text (r ≫= line_events)
  = foldr (λ c acc, help_text_line c +:+ acc) EmptyString r.*2.
Proof.
  induction r as [|lc r IH]; [done|].
  change ((lc :: r) ≫= line_events) with (line_events lc ++ (r ≫= line_events)).
  rewrite cout_text_app, cout_text_line, IH. done.
Qed.

Lemma diagnostics_lines (r : list (loc * command_base.t)) :
  diagnostics (r ≫= line_events) = [].
Proof.
  induction r as [|lc r IH]; [done|].
  change ((lc :: r) ≫= line_events) with (line_events lc ++ (r ≫= line_events)).
  rewrite diagnostics_app, IH, app_nil_r. unfold line_events. simpl.
  rewrite diagnostics_app. simpl. rewrite app_nil_r.
  induction (seqZ 0 (command_base.argumentCount lc.2)) as [|i s IHs]; done.
Qed.

Lemma invoked_lines (r : list (loc * command_base.t)) :
  invoked (r ≫= line_events) = [].
Proof.
  induction r as [|lc r IH]; [done|].
  change ((lc :: r) ≫= line_events) with (line_events lc ++ (r ≫= line_events)).
  rewrite invoked_app, IH, app_nil_r. unfold line_events. simpl.
  rewrite invoked_app. simpl. rewrite app_nil_r.
  induction (seqZ 0 (command_base.argumentCount lc.2)) as [|i s IHs]; done.
Qed.
End help_facts.

(** ** The registry *)

Lemma registered_registry (h : heap) (it : commandlineinterpreter)
    (k : nat) (l : loc) (c : command_base.t) :
  registered h it k l c → (l, c) ∈ registry h it.
Proof.
  intros [Hk Hl]. unfold registry. apply list_elem_of_omap.
  exists (Some l). split; [by eapply list_elem_of_lookup_2|].
  simpl. by rewrite Hl.
Qed.

Lemma registered_registry_lookup (h : heap) (it : commandlineinterpreter)
    (k : nat) (l : loc) (c : command_base.t) :
  live h it → registered h it k l c → registry h it !! k = Some (l, c).
Proof.
  intros Hlive [Hk Hl]. rewrite (registry_live h it Hlive) in Hk.
  rewrite list_lookup_fmap in Hk.
  destruct (registry h it !! k) as [[l' c']|] eqn:Hr; [|done].
  simpl in Hk. simplify_eq.
  apply list_elem_of_lookup_2, registry_lookup in Hr as [Hl' _].
  simpl in Hl'. by simplify_eq.
Qed.

(** Distinct names in the listing are distinct names in the registry. *)
Lemma unique_names_NoDup (h : heap) (it : commandlineinterpreter) :
  live h it → NoDup (command_base.command <$> (registry h it).*2) →
  unique_names h it.
Proof.
  intros Hlive Hnd k1 k2 l1 l2 c1 c2 H1 H2 Heq.
  apply (registered_registry_lookup _ _ _ _ _ Hlive) in H1, H2.
  apply (NoDup_lookup _ k1 k2 (command_base.command c1) Hnd).
  - by rewrite !list_lookup_fmap, H1.
  - by rewrite !list_lookup_fmap, H2, Heq.
Qed.

Lemma first_match_head (h : heap) (it : commandlineinterpreter) (name : string)
    (l : loc) (c : command_base.t) :
  registered h it 0 l c → command_base.command c = name →
  first_match h it name 0 l c.
Proof. intros Hreg Hname. split_and!; [done..|]. intros j p Hj. lia. Qed.

(** ** Dispatch *)

Section run_facts.
Variables (DATE TIME : string).

Lemma help_trace_quiet (h : heap) (it : commandlineinterpreter) :
  live h it →
  diagnostics (trace (help DATE TIME h it)) = [] ∧
  invoked (trace (help DATE TIME h it)) = [].
Proof.
  intros Hlive. rewrite (help_live _ _ _ _ Hlive). simpl.
  by rewrite diagnostics_lines, invoked_lines.
Qed.

Lemma help_trace_text (h : heap) (it : commandlineinterpreter) :
  live h it →
  cout_text (trace (help DATE TIME h it)) = help_text DATE TIME (registry h it).*2.
Proof.
  intros Hlive. rewrite (help_live _ _ _ _ Hlive). unfold help_text.
  change (trace (MkM ?t _)) with t.
  rewrite cout_text_app, cout_text_lines. unfold header_events.
  change (cout_text [Cout ?a; Cout ?b; Cout ?c; Cout ?d; Cout ?e; Cout ?f; Cout ?g; Cout ?i])
    with (a +:+ b +:+ c +:+ d +:+ e +:+ f +:+ g +:+ i +:+ EmptyString).
  by rewrite !string_app_assoc.
Qed.

(** After a diagnostic (or none) the failure paths print the help and
    return 1. *)
Lemma help_then_fail (h : heap) (it : commandlineinterpreter) :
  live h it →
  (help DATE TIME h it ;; mret 1) = MkM (trace (help DATE TIME h it)) (Ok 1).
Proof.
  intros Hlive. rewrite (bind_Ok _ _ tt) by by rewrite (help_live _ _ _ _ Hlive).
  simpl. by rewrite app_nil_r.
Qed.

Lemma run_no_subcommand (h : heap) (it : commandlineinterpreter) :
  live h it → argc_ it < 2 →
  run DATE TIME h it = MkM (trace (help DATE TIME h it)) (Ok 1).
Proof.
  intros Hlive Hargc. unfold run.
  destruct (Z.ltb_spec (argc_ it) 2); [|lia]. by apply help_then_fail.
Qed.

Lemma matches_live (h : heap) (name : string) (l : loc) (c : command_base.t) :
  h !! l = Some c →
  matches h name (Some l) = MkM [] (Ok (String.eqb (command_base.command c) name)).
Proof. intros Hl. unfold matches, deref. by rewrite Hl, bind_lift_Ok. Qed.

Lemma find_if_cons {A : Type} (pred : A → M bool) (x : A) (l : list A) (b : bool) :
  pred x = MkM [] (Ok b) →
  find_if pred (x :: l) = if b then MkM [] (Ok (x :: l)) else find_if pred l.
Proof.
  intros Hx. simpl. rewrite Hx.
  change (MkM [] (Ok b) ≫= ?f) with (lift (Ok b) ≫= f). rewrite bind_lift_Ok.
  by destruct b.
Qed.

(** [std::find_if] stops at the first entry with the requested name and
    never looks at the entries behind it. *)
Lemma find_if_first_match (h : heap) (name : string) (cs : list command_ptr)
    (k : nat) (l : loc) (c : command_base.t) :
  cs !! k = Some (Some l) → h !! l = Some c → command_base.command c = name →
  (∀ j p, (j < k)%nat → cs !! j = Some p →
     ∃ l' c', p = Some l' ∧ h !! l' = Some c' ∧ command_base.command c' ≠ name) →
  find_if (matches h name) cs = MkM [] (Ok (drop k cs)).
Proof.
  revert k. induction cs as [|p cs IH]; intros k Hk Hl Hname Hbefore; [done|].
  destruct k as [|k].
  - simpl in Hk. simplify_eq.
    rewrite (find_if_cons _ _ _ _ (matches_live h _ l c Hl)).
    by rewrite String.eqb_refl.
  - destruct (Hbefore 0%nat p) as (l' & c' & -> & Hl' & Hne); [lia | done |].
    rewrite (find_if_cons _ _ _ _ (matches_live h _ l' c' Hl')).
    apply String.eqb_neq in Hne. rewrite Hne.
    apply IH; [done..|]. intros j q Hj. apply (Hbefore (S j)). lia.
Qed.

Lemma find_if_no_match (h : heap) (name : string) (cs : list command_ptr) :
  (∀ j p, cs !! j = Some p →
     ∃ l' c', p = Some l' ∧ h !! l' = Some c' ∧ command_base.command c' ≠ name) →
  find_if (matches h name) cs = MkM [] (Ok []).
Proof.
  induction cs as [|p cs IH]; intros Hall; [done|].
  destruct (Hall 0%nat p) as (l' & c' & -> & Hl' & Hne); [done|].
  rewrite (find_if_cons _ _ _ _ (matches_live h _ l' c' Hl')).
  apply String.eqb_neq in Hne. rewrite Hne.
  apply IH. intros j q. apply (Hall (S j)).
Qed.

Lemma read_argv_1 (it : commandlineinterpreter) (name : string) :
  argv_ it !! 1%nat = Some name → read_argv it 1 = Ok name.
Proof.
  intros Hname. unfold read_argv.
  change ((1 <? 0) || (INT_MAX <? 1)) with false.
  change (Z.to_nat 1) with 1%nat. by rewrite Hname.
Qed.

(** [run()] up to the arity test, when entry [k] is the first match. *)
Lemma run_first_match (h : heap) (it : commandlineinterpreter) (name : string)
    (k : nat) (l : loc) (c : command_base.t) :
  2 ≤ argc_ it → argv_ it !! 1%nat = Some name → first_match h it name k l c →
  run DATE TIME h it =
    if negb (command_base.argumentCount c =? argc_ it - 2) then
      printf ("Wrong number of arguments for command: " +:+ name +:+ nl) ;;
      help DATE TIME h it ;; mret 1
    else
      MkM [CallRun l]
        (outcome_map (λ b : bool, if b then 0 else 1) (command_base.run c it)).
Proof.
  intros Hargc Hname ([Hk Hl] & Hc & Hbefore). unfold run.
  destruct (Z.ltb_spec (argc_ it) 2); [lia|].
  rewrite (read_argv_1 _ _ Hname), bind_lift_Ok.
  rewrite (find_if_first_match h name _ k l c) by done.
  change (MkM [] (Ok ?a) ≫= ?f) with (lift (Ok a) ≫= f). rewrite bind_lift_Ok.
  rewrite (drop_S _ _ _ Hk). unfold deref. rewrite Hl, bind_lift_Ok.
  destruct (negb _); [done|].
  rewrite bind_emit. unfold lift, mbind, M_bind. simpl.
  by destruct (command_base.run c it) as [[]| |].
Qed.

Lemma run_no_match (h : heap) (it : commandlineinterpreter) (name : string) :
  live h it → 2 ≤ argc_ it → argv_ it !! 1%nat = Some name →
  (∀ k l c, registered h it k l c → command_base.command c ≠ name) →
  run DATE TIME h it =
    MkM (Printf ("Unknown command: " +:+ name +:+ nl) :: trace (help DATE TIME h it))
        (Ok 1).
Proof.
  intros Hlive Hargc Hname Hnone. unfold run.
  destruct (Z.ltb_spec (argc_ it) 2); [lia|].
  rewrite (read_argv_1 _ _ Hname), bind_lift_Ok.
  rewrite (find_if_no_match h name).
  - change (MkM [] (Ok ?a) ≫= ?f) with (lift (Ok a) ≫= f). rewrite bind_lift_Ok.
    unfold printf. rewrite bind_emit. by rewrite help_then_fail.
  - intros j p Hp. destruct (Hlive j p Hp) as (l & c & -> & Hl).
    exists l, c. split_and!; [done..|]. by apply (Hnone j l c).
Qed.
End run_facts.

(** ** [clear()] *)

Lemma clear_entries_nulls (h h' : heap) (cs cs' : list command_ptr) :
  clear_entries h cs = Ok (h', cs') → cs' = replicate (length cs) nullptr.
Proof.
  revert h h' cs'. induction cs as [|c cs IH]; intros h h' cs' Hclear.
  - by simplify_eq/=.
  - simpl in Hclear. destruct (delete_command h c) as [h1| |]; [|done..].
    simpl in Hclear.
    destruct (clear_entries h1 cs) as [[h2 cs2]| |] eqn:Hrest; [|done..].
    cbv [mbind outcome_bind mret outcome_ret] in Hclear. simplify_eq.
    simpl. f_equal. by apply (IH h1 h').
Qed.


Lemma clear_entries_all_null (h : heap) (cs : list command_ptr) :
  (∀ p, p ∈ cs → p = nullptr) → clear_entries h cs = Ok (h, cs).
Proof.
  induction cs as [|c cs IH]; intros Hnull; [done|].
  rewrite (Hnull c) by left. simpl.
  rewrite IH by (intros p Hp; apply Hnull; by right). done.
Qed.

(** One command in the registry is enough: its [delete] is undefined. *)
Lemma clear_entries_command_faults (h : heap) (cs : list command_ptr) (l : loc) :
  Some l ∈ cs → clear_entries h cs = Fault.
Proof.
  induction cs as [|c cs IH]; intros Hin; [by apply elem_of_nil in Hin|].
  destruct c as [l'|].
  - simpl. by destruct (h !! l').
  - apply elem_of_cons in Hin as [?|Hin]; [done|]. simpl. by rewrite IH.
Qed.

Lemma clear_entries_Ok_inv (h h' : heap) (cs cs' : list command_ptr) :
  clear_entries h cs = Ok (h', cs') →
  h' = h ∧ cs' = cs ∧ ∀ p, p ∈ cs → p = nullptr.
Proof.
  intros Hclear.
  assert (∀ p, p ∈ cs → p = nullptr) as Hnull.
  { intros [l|] Hp; [|done].
    by rewrite (clear_entries_command_faults h cs l Hp) in Hclear. }
  rewrite (clear_entries_all_null h cs Hnull) in Hclear. by simplify_eq.
Qed.

Lemma clear_command_faults (h : heap) (it : commandlineinterpreter) (l : loc) :
  Some l ∈ commands_ it → clear h it = Fault.
Proof.
  intros Hin. unfold clear. by rewrite (clear_entries_command_faults h _ l Hin).
Qed.

Lemma clear_all_null (h : heap) (it : commandlineinterpreter) :
  (∀ p, p ∈ commands_ it → p = nullptr) → clear h it = Ok (h, it).
Proof.
  intros Hnull. unfold clear. rewrite (clear_entries_all_null h _ Hnull).
  by destruct it.
Qed.

Lemma clear_Ok_inv (h h' : heap) (it it' : commandlineinterpreter) :
  clear h it = Ok (h', it') →
  h' = h ∧ it' = it ∧ ∀ p, p ∈ commands_ it → p = nullptr.
Proof.
  unfold clear. intros Hclear.
  destruct (clear_entries h (commands_ it)) as [[h1 cs1]| |] eqn:Hentries; [|done..].
  apply clear_entries_Ok_inv in Hentries as (-> & -> & Hnull).
  cbv [mbind outcome_bind mret outcome_ret] in Hclear. simplify_eq.
  split_and!; [done| |done]. by destruct it.
Qed.

(** What [clear()] leaves, when it returns, is the registry with every
    entry overwritten and none erased. *)
Lemma clear_Ok_nulled (h h' : heap) (it it' : commandlineinterpreter) :
  clear h it = Ok (h', it') → it' = nulled it.
Proof.
  unfold clear. intros Hclear.
  destruct (clear_entries h (commands_ it)) as [[h1 cs1]| |] eqn:Hentries; [|done..].
  cbv [mbind outcome_bind mret outcome_ret] in Hclear. simplify_eq.
  unfold nulled. by rewrite (clear_entries_nulls _ _ _ _ Hentries).
Qed.

Lemma clear_nulled (h : heap) (it : commandlineinterpreter) :
  clear h (nulled it) = Ok (h, nulled it).
Proof.
  apply clear_all_null. by intros p [-> _]%elem_of_replicate.
Qed.


(** A registry that went through [clear()] with at least one entry makes
    every later [run()] dereference a null pointer: in the lambda of
    [std::find_if], or in the lambda of [help()] when [argc_ < 2]. *)
Lemma run_after_clear_faults (DATE TIME : string) (h h' : heap)
    (it it' : commandlineinterpreter) :
  commands_ it ≠ [] → clear h it = Ok (h', it') →
  result (run DATE TIME h' it') = Fault.
Proof.
  unfold clear. intros Hne Hclear.
  destruct (clear_entries h (commands_ it)) as [[h1 cs1]| |] eqn:Hentries; [|done..].
  cbv [mbind outcome_bind mret outcome_ret] in Hclear. simplify_eq.
  apply clear_entries_nulls in Hentries as ->.
  destruct (commands_ it) as [|c cs]; [done|]. unfold run.
  cbn [commands_ argc_ argv_ length replicate].
  destruct (argc_ it <? 2).
  - apply result_bind_Fault. unfold help, cout, endl.
    by rewrite !result_bind_emit.
  - unfold read_argv. cbn [argv_].
    destruct (_ || _); [done|]. destruct (argv_ it !! _) as [name|]; [|done].
    by rewrite bind_lift_Ok.
Qed.

(** ** [get<int>] *)

Lemma skip_spaces_app (ws t : string) :
  all_of isspace ws = true → skip_spaces (ws +:+ t) = skip_spaces t.
Proof.
  induction ws as [|c ws IH]; [done|]. simpl.
  intros [Hc Hws]%andb_true_iff. rewrite Hc. by apply IH.
Qed.

Lemma skip_spaces_head (t : string) :
  head_is isspace t = false → skip_spaces t = t.
Proof. destruct t as [|c t]; [done|]. simpl. by intros ->. Qed.

Lemma read_digits_app (acc : Z) (ds rest : string) :
  all_of isdigit ds = true → head_is isdigit rest = false →
  read_digits acc (ds +:+ rest) = acc * 10 ^ Z.of_nat (String.length ds) + decimal ds.
Proof.
  revert acc. induction ds as [|d ds IH]; intros acc Hds Hrest.
  - rewrite string_app_nil. simpl.
    destruct rest as [|c rest]; simpl in *; [lia|]. rewrite Hrest. lia.
  - simpl in Hds. apply andb_true_iff in Hds as [Hd Hds].
    rewrite string_app_cons. simpl read_digits. rewrite Hd.
    rewrite IH by done. simpl String.length. simpl decimal.
    rewrite Nat2Z.inj_succ, Z.pow_succ_r by lia. lia.
Qed.

Lemma digit_not_space_sign (c : Ascii.ascii) :
  isdigit c = true → isspace c = false ∧ issign c = false.
Proof. by destruct c as [[] [] [] [] [] [] [] []]. Qed.

Lemma head_digit_not_space_sign (s : string) :
  head_is isdigit s = true → head_is isspace s = false ∧ head_is issign s = false.
Proof. destruct s as [|c s]; [done|]. apply digit_not_space_sign. Qed.

Lemma strtol_unsigned (t : string) :
  head_is isspace t = false → head_is issign t = false →
  strtol t = if head_is isdigit t then Some (read_digits 0 t) else None.
Proof.
  intros Hsp Hsg. unfold strtol. rewrite (skip_spaces_head _ Hsp).
  destruct t as [|c t]; [done|]. simpl in *. rewrite Hsg. done.
Qed.

Lemma strtol_signed (c : Ascii.ascii) (t : string) :
  issign c = true →
  strtol (String c t)
  = if head_is isdigit t
    then Some (if Ascii.eqb c "-" then - read_digits 0 t else read_digits 0 t)
    else None.
Proof.
  intros Hc. unfold strtol.
  assert (isspace c = false) as Hsp by (by destruct c as [[] [] [] [] [] [] [] []]).
  simpl. rewrite Hsp, Hc. by destruct t.
Qed.

Lemma head_is_app (P : Ascii.ascii → bool) (ds rest : string) :
  head_is P (ds +:+ rest)
  = if String.eqb ds EmptyString then head_is P rest else head_is P ds.
Proof. by destruct ds. Qed.

Lemma all_of_head (P : Ascii.ascii → bool) (ds : string) :
  all_of P ds = true → String.eqb ds EmptyString = false → head_is P ds = true.
Proof. destruct ds as [|d ds]; [done|]. simpl. by intros [? _]%andb_true_iff. Qed.

(** [std::stoi] on an argument cut into white space, sign, digits and
    the rest. *)
Lemma stoi_decomposed (ws sg ds rest : string) :
  all_of isspace ws = true →
  sg = EmptyString ∨ sg = "+" ∨ sg = "-" →
  all_of isdigit ds = true →
  head_is isdigit rest = false →
  (ds = EmptyString → sg = EmptyString →
   head_is isspace rest = false ∧ head_is issign rest = false) →
  stoi (ws +:+ sg +:+ ds +:+ rest) = converted sg ds.
Proof.
  intros Hws Hsg Hds Hrest Hmax. unfold stoi, strtol.
  rewrite (skip_spaces_app _ _ Hws). fold (strtol (sg +:+ ds +:+ rest)).
  assert (read_digits 0 (ds +:+ rest) = decimal ds) as Hval.
  { rewrite read_digits_app by done. lia. }
  assert (head_is isdigit (ds +:+ rest) = negb (String.eqb ds EmptyString)) as Hhead.
  { rewrite head_is_app. destruct (String.eqb ds EmptyString) eqn:He; [done|].
    by apply all_of_head. }
  unfold converted, signed.
  destruct Hsg as [->|[->| ->]].
  - rewrite string_app_nil.
    rewrite strtol_unsigned.
    + rewrite Hhead, Hval. by destruct (String.eqb ds EmptyString).
    + rewrite head_is_app. destruct (String.eqb_spec ds EmptyString) as [->|Hne].
      * by apply Hmax.
      * apply head_digit_not_space_sign. by apply all_of_head, String.eqb_neq.
    + rewrite head_is_app. destruct (String.eqb_spec ds EmptyString) as [->|Hne].
      * by apply Hmax.
      * apply head_digit_not_space_sign. by apply all_of_head, String.eqb_neq.
  - rewrite string_app_cons, string_app_nil, strtol_signed by done.
    rewrite Hhead, Hval. by destruct (String.eqb ds EmptyString).
  - rewrite string_app_cons, string_app_nil, strtol_signed by done.
    rewrite Hhead, Hval. by destruct (String.eqb ds EmptyString).
Qed.

Lemma get_int_stoi (it : commandlineinterpreter) (index : Z) (s : string) :
  0 ≤ index + 2 ≤ INT_MAX → argv_ it !! Z.to_nat (index + 2) = Some s →
  get_int it index = stoi s.
Proof.
  intros Hrange Hs. unfold get_int, read_argv.
  destruct (Z.ltb_spec (index + 2) 0); [lia|].
  destruct (Z.ltb_spec INT_MAX (index + 2)); [lia|].
  simpl. by rewrite Hs.
Qed.

(** On numeric strings [std::stoi] gives the number, or [std::out_of_range]. *)
Lemma stoi_numeric (s : string) :
  numeric s = true →
  ∃ sg ds, s = sg +:+ ds ∧ (sg = EmptyString ∨ sg = "+" ∨ sg = "-") ∧
    String.eqb ds EmptyString = false ∧ stoi s = converted sg ds.
Proof.
  unfold numeric. intros [Hhead Hall]%andb_true_iff.
  destruct s as [|c r]; [done|].
  destruct (issign c) eqn:Hc.
  - assert (String c EmptyString = "+" ∨ String c EmptyString = "-") as Hsg.
    { unfold issign in Hc. apply orb_true_iff in Hc as [Hc|Hc];
        apply Ascii.eqb_eq in Hc as ->; auto. }
    exists (String c EmptyString), r. split_and!; [done|tauto|by destruct r|].
    rewrite <-(stoi_decomposed EmptyString (String c EmptyString) r EmptyString);
      [|done|tauto|done..].
    change (EmptyString +:+ String c EmptyString +:+ r +:+ EmptyString)
      with (String c (r +:+ EmptyString)).
    by rewrite string_app_nil_r.
  - exists EmptyString, (String c r). split_and!; [done|tauto|done|].
    rewrite <-(stoi_decomposed EmptyString EmptyString (String c r) EmptyString);
      [|done|tauto|done..].
    change (EmptyString +:+ EmptyString +:+ String c r +:+ EmptyString)
      with (String c r +:+ EmptyString).
    by rewrite string_app_nil_r.
Qed.

(** More arguments of [prog add]. *)
Example get_int_examples :
  stoi "3" = Ok 3 ∧ stoi "  -42" = Ok (-42) ∧ stoi "+7" = Ok 7 ∧
  stoi "3.5" = Ok 3 ∧ stoi "7 " = Ok 7 ∧
  stoi EmptyString = Throw invalid_argument ∧ stoi "abc" = Throw invalid_argument ∧
  stoi "-" = Throw invalid_argument ∧ stoi "- 1" = Throw invalid_argument ∧
  stoi "2147483647" = Ok INT_MAX ∧ stoi "-2147483648" = Ok INT_MIN ∧
  stoi "2147483648" = Throw out_of_range ∧
  stoi "99999999999" = Throw out_of_range.
Proof. split_and!; reflexivity. Qed.

(** The three invocations of the sample application: [prog add 3 4]
    succeeds, [prog add 3] has one argument too few, [prog mul 3 4] names
    no command. *)
Example add_scenario (DATE TIME : string) :
  get_int (add_interpreter ["prog"; "add"; "3"; "4"]) 0 = Ok 3 ∧
  get_int (add_interpreter ["prog"; "add"; "3"; "4"]) 1 = Ok 4 ∧
  run DATE TIME add_heap (add_interpreter ["prog"; "add"; "3"; "4"])
    = MkM [CallRun 1%positive] (Ok 0) ∧
  result (run DATE TIME add_heap (add_interpreter ["prog"; "add"; "3"])) = Ok 1 ∧
  invoked (trace (run DATE TIME add_heap (add_interpreter ["prog"; "add"; "3"]))) = [] ∧
  result (run DATE TIME add_heap (add_interpreter ["prog"; "mul"; "3"; "4"])) = Ok 1.
Proof. split_and!; reflexivity. Qed.

(** ** Properties of the interpreter *)

Section dispatch_properties.
Variables (DATE TIME : string).

(** What an observer sees of a failure path that prints the diagnostic
    [d] and then the help. *)
Lemma diagnostic_then_help (h : heap) (it : commandlineinterpreter)
    (d : string) (m : M Z) :
  live h it →
  m = MkM (Printf d :: trace (help DATE TIME h it)) (Ok 1) →
  diagnostics (trace m) = [d] ∧
  cout_text (trace m) = help_text DATE TIME (registry h it).*2 ∧
  invoked (trace m) = [].
Proof.
  intros Hlive ->. destruct (help_trace_quiet DATE TIME h it Hlive) as [Hd Hi].
  change (trace (MkM ?t _)) with t.
  change (diagnostics (Printf d :: ?t)) with (d :: diagnostics t).
  change (cout_text (Printf d :: ?t)) with (cout_text t).
  change (invoked (Printf d :: ?t)) with (invoked t).
  by rewrite Hd, Hi, (help_trace_text DATE TIME h it Hlive).
Qed.

Lemma unique_first_match (h : heap) (it : commandlineinterpreter)
    (k : nat) (l : loc) (c : command_base.t) :
  live h it → unique_names h it → registered h it k l c →
  first_match h it (command_base.command c) k l c.
Proof.
  intros Hlive Huniq Hreg. split_and!; [done..|].
  intros j p Hj Hp. destruct (Hlive j p Hp) as (l' & c' & -> & Hl').
  exists l', c'. split_and!; [done..|]. intros Heq.
  assert (j = k) by (by apply (Huniq j k l' l c' c)). lia.
Qed.

(** C1. When the registered names are pairwise distinct and [argv] is
    [prog, name, a1 .. an] with [name] the name of a registered command
    whose [argumentCount()] is [n], [run()] enters the [run] of that
    command, once, and of no other; nothing is printed; the exit code is
    0 when the command returns [true] and 1 when it returns [false]. *)
Theorem run_invokes_named_command (h : heap) (it : commandlineinterpreter)
    (k : nat) (l : loc) (c : command_base.t) (prog : string) (args : list string) :
  live h it → unique_names h it → registered h it k l c →
  argv_ it = prog :: command_base.command c :: args →
  argc_ it = Z.of_nat (length (argv_ it)) →
  Z.of_nat (length args) = command_base.argumentCount c →
  trace (run DATE TIME h it) = [CallRun l] ∧
  invoked (trace (run DATE TIME h it)) = [l] ∧
  ∀ b : bool, command_base.run c it = Ok b →
    result (run DATE TIME h it) = Ok (if b then 0 else 1).
Proof.
  intros Hlive Huniq Hreg Hargv Hargc Harity.
  rewrite Hargv in Hargc. simpl in Hargc.
  rewrite (run_first_match DATE TIME h it (command_base.command c) k l c);
    [|lia|by rewrite Hargv|by apply unique_first_match].
  destruct (Z.eqb_spec (command_base.argumentCount c) (argc_ it - 2)); [|lia].
  simpl. split_and!; [done..|]. by intros b ->.
Qed.

(** C2. When the command matched by name takes a number of arguments
    other than [argc - 2], [run()] prints the wrong-number diagnostic,
    then the help, returns 1 and enters no command's [run]. *)
Theorem run_wrong_argument_count (h : heap) (it : commandlineinterpreter)
    (name : string) (k : nat) (l : loc) (c : command_base.t) :
  live h it → 2 ≤ argc_ it → argv_ it !! 1%nat = Some name →
  first_match h it name k l c →
  argc_ it - 2 ≠ command_base.argumentCount c →
  run DATE TIME h it =
    MkM (Printf ("Wrong number of arguments for command: " +:+ name +:+ nl)
           :: trace (help DATE TIME h it)) (Ok 1) ∧
  diagnostics (trace (run DATE TIME h it))
    = ["Wrong number of arguments for command: " +:+ name +:+ nl] ∧
  cout_text (trace (run DATE TIME h it)) = help_text DATE TIME (registry h it).*2 ∧
  invoked (trace (run DATE TIME h it)) = [].
Proof.
  intros Hlive Hargc Hname Hfirst Harity.
  assert (run DATE TIME h it =
    MkM (Printf ("Wrong number of arguments for command: " +:+ name +:+ nl)
           :: trace (help DATE TIME h it)) (Ok 1)) as Hrun.
  { rewrite (run_first_match DATE TIME h it name k l c) by done.
    destruct (Z.eqb_spec (command_base.argumentCount c) (argc_ it - 2)); [lia|].
    cbn [negb]. unfold printf. by rewrite bind_emit, help_then_fail. }
  split; [done|]. by apply diagnostic_then_help.
Qed.

(** C3. When [argv[1]] is the name of no registered command, [run()]
    prints the unknown-command diagnostic, then the help, returns 1 and
    enters no command's [run]. *)
Theorem run_unknown_command (h : heap) (it : commandlineinterpreter) (name : string) :
  live h it → 2 ≤ argc_ it → argv_ it !! 1%nat = Some name →
  (∀ k l c, registered h it k l c → command_base.command c ≠ name) →
  run DATE TIME h it =
    MkM (Printf ("Unknown command: " +:+ name +:+ nl)
           :: trace (help DATE TIME h it)) (Ok 1) ∧
  diagnostics (trace (run DATE TIME h it)) = ["Unknown command: " +:+ name +:+ nl] ∧
  cout_text (trace (run DATE TIME h it)) = help_text DATE TIME (registry h it).*2 ∧
  invoked (trace (run DATE TIME h it)) = [].
Proof.
  intros Hlive Hargc Hname Hnone.
  pose proof (run_no_match DATE TIME h it name Hlive Hargc Hname Hnone) as Hrun.
  split; [done|]. by apply diagnostic_then_help.
Qed.

(** C6. The name test of [run()] is equality of strings, character by
    character, so letter case counts; the search goes through the
    registry in registration order and stops at the first entry whose
    name is [argv[1]]: that entry is the one whose [run] is entered, also
    when later entries carry the same name. *)
Theorem run_first_exact_match_wins (h : heap) (it : commandlineinterpreter)
    (name : string) (k : nat) (l : loc) (c : command_base.t) :
  2 ≤ argc_ it → argv_ it !! 1%nat = Some name →
  first_match h it name k l c →
  command_base.argumentCount c = argc_ it - 2 →
  (∀ l' c', h !! l' = Some c' →
     matches h name (Some l')
     = MkM [] (Ok (bool_decide (command_base.command c' = name)))) ∧
  find_if (matches h name) (commands_ it) = MkM [] (Ok (drop k (commands_ it))) ∧
  invoked (trace (run DATE TIME h it)) = [l].
Proof.
  intros Hargc Hname Hfirst Harity. split_and!.
  - intros l' c' Hl'. rewrite (matches_live h name l' c' Hl'). do 2 f_equal.
    case_bool_decide as Hd.
    + by apply String.eqb_eq.
    + by apply String.eqb_neq.
  - destruct Hfirst as ([Hk Hl] & Hc & Hbefore).
    by apply (find_if_first_match h name _ k l c).
  - rewrite (run_first_match DATE TIME h it name k l c) by done.
    by destruct (Z.eqb_spec (command_base.argumentCount c) (argc_ it - 2)).
Qed.

(** C7. With fewer than two entries in [argv], [run()] prints the help
    and nothing else (no diagnostic), and returns 1. *)
Theorem run_without_subcommand (h : heap) (it : commandlineinterpreter) :
  live h it → argc_ it < 2 →
  result (run DATE TIME h it) = Ok 1 ∧
  trace (run DATE TIME h it) = trace (help DATE TIME h it) ∧
  diagnostics (trace (run DATE TIME h it)) = [] ∧
  cout_text (trace (run DATE TIME h it)) = help_text DATE TIME (registry h it).*2 ∧
  invoked (trace (run DATE TIME h it)) = [].
Proof.
  intros Hlive Hargc. rewrite (run_no_subcommand DATE TIME h it Hlive Hargc).
  destruct (help_trace_quiet DATE TIME h it Hlive) as [Hd Hi].
  split_and!; [done..| |done]. by apply help_trace_text.
Qed.

(** C8. [help()] writes to [cout] the line ["built " DATE " " TIME], an
    empty line and the line ["Commands:"], and then, for each registered
    command in registration order, one line made of its name and of each
    of its [argumentCount()] argument names between angle brackets. *)
Theorem help_prints_listing (h : heap) (it : commandlineinterpreter) :
  live h it →
  result (help DATE TIME h it) = Ok tt ∧
  cout_text (trace (help DATE TIME h it)) = help_text DATE TIME (registry h it).*2 ∧
  diagnostics (trace (help DATE TIME h it)) = [] ∧
  commands_ it = Some <$> (registry h it).*1.
Proof.
  intros Hlive. split_and!.
  - by rewrite (help_live _ _ _ _ Hlive).
  - by apply help_trace_text.
  - by apply help_trace_quiet.
  - rewrite (registry_live h it Hlive) at 1. by rewrite <-list_fmap_compose.
Qed.

(** C10. Every [argumentName(i)] call that [help()] makes goes to a
    registered, live command [c] with [0 <= i < c.argumentCount()]. *)
Theorem help_argumentName_in_range (h : heap) (it : commandlineinterpreter)
    (l : loc) (i : Z) :
  CallArgumentName l i ∈ trace (help DATE TIME h it) →
  ∃ c, Some l ∈ commands_ it ∧ h !! l = Some c ∧
       0 ≤ i < command_base.argumentCount c.
Proof.
  unfold help, cout, endl. rewrite !bind_emit. simpl.
  rewrite !elem_of_cons. intros He.
  repeat (destruct He as [He|He]; [done|]).
  apply for_each_elem in He as (p & Hp & He).
  unfold help_line, deref in He. destruct p as [l'|]; [|by apply elem_of_nil in He].
  destruct (h !! l') as [c|] eqn:Hl'; [|by apply elem_of_nil in He].
  rewrite bind_lift_Ok in He. unfold cout in He. rewrite !bind_emit in He.
  simpl in He. rewrite !elem_of_cons in He.
  repeat (destruct He as [He|He]; [done|]).
  apply trace_bind_elem in He as [He | (_ & _ & He)].
  - apply for_each_elem in He as (j & Hj & He).
    simpl in He. rewrite !elem_of_cons in He.
    destruct He as [He|[He|[He|[He|He]]]]; try done; [|by apply elem_of_nil in He].
    simplify_eq. exists c. apply elem_of_seqZ in Hj.
    split; [done|]. split; [done|lia].
  - unfold endl, emit in He. simpl in He. apply list_elem_of_singleton in He. done.
Qed.
End dispatch_properties.

(** C9. [clear()] is meant to destroy each registered command and to
    overwrite its entry with [nullptr], erasing none. On the registry of
    [prog add 3 4] it does not get that far: [delete c] on the command,
    through a [command_base*] without virtual destructor, is undefined, and
    so is [clear()]. *)
Theorem clear_deletes_through_base_pointer :
  let it := add_interpreter ["prog"; "add"; "3"; "4"] in
  commands_ it = [Some 1%positive] ∧
  add_heap !! 1%positive = Some add_command ∧
  delete_command add_heap (Some 1%positive) = Fault ∧
  clear add_heap it = Fault.
Proof. split_and!; reflexivity. Qed.

(** C4. After [clear()] a [run()] does not behave as on an interpreter
    without commands. For [prog add 3 4] the [delete c] of [clear()] is
    undefined to begin with; and once the loop of [clear()] has gone over
    the registry, its one entry is still there, now null: a second
    [clear()] returns and changes nothing, and [run()] dereferences the
    null entry where the interpreter without commands reports the unknown
    command and returns 1. *)
Theorem clear_then_run_faults (DATE TIME : string) :
  let argv := ["prog"; "add"; "3"; "4"] in
  let it' := nulled (add_interpreter argv) in
  run DATE TIME add_heap (add_interpreter argv) = MkM [CallRun 1%positive] (Ok 0) ∧
  clear add_heap (add_interpreter argv) = Fault ∧
  commands_ it' = [nullptr] ∧
  (∀ h : heap, clear h it' = Ok (h, it') ∧ run DATE TIME h it' = MkM [] Fault) ∧
  run DATE TIME ∅ (main_interpreter argv)
  = MkM (Printf ("Unknown command: add" +:+ nl)
           :: trace (help DATE TIME ∅ (main_interpreter argv))) (Ok 1).
Proof.
  split_and!; try reflexivity. intros h. split; reflexivity.
Qed.

(** C5. [get<int>(index)] hands [argv_[index + 2]] to
    [std::stoi]: after leading white space and an optional sign the longest
    run of decimal digits is converted and the text behind it is ignored.
    With at least one digit the result is the signed value when it fits an
    [int] and [std::out_of_range] otherwise; without a digit it is
    [std::invalid_argument]. Neither exception is caught by [run()]: when the
    command entered reads the argument first thing, [run()] ends with the
    exception right after entering the command. *)
Theorem get_int_converts_leading_numeral (DATE TIME : string)
    (it : commandlineinterpreter) (index : Z) (ws sg ds rest : string) :
  0 ≤ index + 2 ≤ INT_MAX →
  argv_ it !! Z.to_nat (index + 2) = Some (ws +:+ sg +:+ ds +:+ rest) →
  all_of isspace ws = true →
  sg = EmptyString ∨ sg = "+" ∨ sg = "-" →
  all_of isdigit ds = true →
  head_is isdigit rest = false →
  (ds = EmptyString → sg = EmptyString →
   head_is isspace rest = false ∧ head_is issign rest = false) →
  get_int it index = converted sg ds ∧
  ∀ h name k l c f e,
    2 ≤ argc_ it → argv_ it !! 1%nat = Some name → first_match h it name k l c →
    command_base.argumentCount c = argc_ it - 2 →
    command_base.run c it = get_int it index ≫= f →
    converted sg ds = Throw e →
    run DATE TIME h it = MkM [CallRun l] (Throw e).
Proof.
  intros Hrange Hargv Hws Hsg Hds Hrest Hmax.
  assert (get_int it index = converted sg ds) as Hget.
  { rewrite (get_int_stoi _ _ _ Hrange Hargv). by apply stoi_decomposed. }
  split; [done|].
  intros h name k l c f e Hargc Hname Hfirst Harity Hrun Hthrow.
  rewrite (run_first_match DATE TIME h it name k l c) by done.
  destruct (Z.eqb_spec (command_base.argumentCount c) (argc_ it - 2)); [|done].
  cbn [negb]. by rewrite Hrun, Hget, Hthrow.
Qed.

(** ** The properties at work on the sample application *)

Lemma tool_live (argv : list string) : live tool_heap (tool_interpreter argv).
Proof. live_registry. Qed.

Lemma tool_unique_names (argv : list string) :
  unique_names tool_heap (tool_interpreter argv).
Proof.
  apply unique_names_NoDup; [apply tool_live|].
  change (NoDup ["add"; "version"]). apply NoDup_cons. split.
  - by intros [?|?%elem_of_nil]%elem_of_cons.
  - apply NoDup_singleton.
Qed.

Lemma tool_registered_add (argv : list string) :
  registered tool_heap (tool_interpreter argv) 0 1%positive add_command.
Proof. by split. Qed.

Lemma run_invokes_named_command_witness :
  let it := tool_interpreter ["prog"; "add"; "3"; "4"] in
  trace (run "Feb  5 2014" "12:00:00" tool_heap it) = [CallRun 1%positive] ∧
  invoked (trace (run "Feb  5 2014" "12:00:00" tool_heap it)) = [1%positive] ∧
  ∀ b : bool, command_base.run add_command it = Ok b →
    result (run "Feb  5 2014" "12:00:00" tool_heap it) = Ok (if b then 0 else 1).
Proof.
  apply (run_invokes_named_command "Feb  5 2014" "12:00:00" tool_heap
           (tool_interpreter ["prog"; "add"; "3"; "4"]) 0 1%positive add_command
           "prog" ["3"; "4"]).
  - apply tool_live.
  - apply tool_unique_names.
  - apply tool_registered_add.
  - reflexivity.
  - reflexivity.
  - reflexivity.
Defined.

Lemma tool_registry (argv : list string) :
  registry tool_heap (tool_interpreter argv)
  = [(1%positive, add_command); (2%positive, plain_command "version" true)].
Proof. reflexivity. Qed.

Lemma run_wrong_argument_count_witness :
  let it := tool_interpreter ["prog"; "add"; "3"] in
  let d := "Wrong number of arguments for command: add" +:+ nl in
  run "Feb  5 2014" "12:00:00" tool_heap it =
    MkM (Printf d :: trace (help "Feb  5 2014" "12:00:00" tool_heap it)) (Ok 1) ∧
  diagnostics (trace (run "Feb  5 2014" "12:00:00" tool_heap it)) = [d] ∧
  cout_text (trace (run "Feb  5 2014" "12:00:00" tool_heap it))
    = help_text "Feb  5 2014" "12:00:00" (registry tool_heap it).*2 ∧
  invoked (trace (run "Feb  5 2014" "12:00:00" tool_heap it)) = [].
Proof.
  apply (run_wrong_argument_count "Feb  5 2014" "12:00:00" tool_heap
           (tool_interpreter ["prog"; "add"; "3"]) "add" 0 1%positive add_command).
  - apply tool_live.
  - vm_compute. discriminate.
  - reflexivity.
  - apply first_match_head; [apply tool_registered_add | reflexivity].
  - vm_compute. discriminate.
Defined.

Lemma run_unknown_command_witness :
  let it := tool_interpreter ["prog"; "mul"; "3"; "4"] in
  let d := "Unknown command: mul" +:+ nl in
  run "Feb  5 2014" "12:00:00" tool_heap it =
    MkM (Printf d :: trace (help "Feb  5 2014" "12:00:00" tool_heap it)) (Ok 1) ∧
  diagnostics (trace (run "Feb  5 2014" "12:00:00" tool_heap it)) = [d] ∧
  cout_text (trace (run "Feb  5 2014" "12:00:00" tool_heap it))
    = help_text "Feb  5 2014" "12:00:00" (registry tool_heap it).*2 ∧
  invoked (trace (run "Feb  5 2014" "12:00:00" tool_heap it)) = [].
Proof.
  apply (run_unknown_command "Feb  5 2014" "12:00:00" tool_heap
           (tool_interpreter ["prog"; "mul"; "3"; "4"]) "mul").
  - apply tool_live.
  - vm_compute. discriminate.
  - reflexivity.
  - intros k l c Hreg%registered_registry. rewrite tool_registry in Hreg.
    apply elem_of_cons in Hreg as [Heq|Hreg].
    { injection Heq as -> ->. discriminate. }
    apply elem_of_cons in Hreg as [Heq|Hreg].
    { injection Heq as -> ->. discriminate. }
    by apply elem_of_nil in Hreg.
Defined.

Lemma shadow_first_match :
  first_match shadow_heap (shadow_interpreter ["prog"; "add"]) "add"
    1 2%positive (plain_command "add" true).
Proof.
  split_and!; [by split | reflexivity |].
  intros j p Hj Hp. destruct j as [|j]; [|lia]. injection Hp as <-.
  exists 1%positive, (plain_command "Add" false). split_and!; [reflexivity..|].
  discriminate.
Qed.

Lemma run_first_exact_match_wins_witness :
  let it := shadow_interpreter ["prog"; "add"] in
  (∀ l' c', shadow_heap !! l' = Some c' →
     matches shadow_heap "add" (Some l')
     = MkM [] (Ok (bool_decide (command_base.command c' = "add")))) ∧
  find_if (matches shadow_heap "add") (commands_ it)
    = MkM [] (Ok (drop 1 (commands_ it))) ∧
  invoked (trace (run "Feb  5 2014" "12:00:00" shadow_heap it)) = [2%positive].
Proof.
  apply (run_first_exact_match_wins "Feb  5 2014" "12:00:00" shadow_heap
           (shadow_interpreter ["prog"; "add"]) "add" 1 2%positive
           (plain_command "add" true)).
  - vm_compute. discriminate.
  - reflexivity.
  - apply shadow_first_match.
  - reflexivity.
Defined.

Lemma run_without_subcommand_witness :
  let it := tool_interpreter ["prog"] in
  result (run "Feb  5 2014" "12:00:00" tool_heap it) = Ok 1 ∧
  trace (run "Feb  5 2014" "12:00:00" tool_heap it)
    = trace (help "Feb  5 2014" "12:00:00" tool_heap it) ∧
  diagnostics (trace (run "Feb  5 2014" "12:00:00" tool_heap it)) = [] ∧
  cout_text (trace (run "Feb  5 2014" "12:00:00" tool_heap it))
    = help_text "Feb  5 2014" "12:00:00" (registry tool_heap it).*2 ∧
  invoked (trace (run "Feb  5 2014" "12:00:00" tool_heap it)) = [].
Proof.
  apply (run_without_subcommand "Feb  5 2014" "12:00:00" tool_heap
           (tool_interpreter ["prog"])).
  - apply tool_live.
  - vm_compute. reflexivity.
Defined.

Lemma help_prints_listing_witness :
  let it := tool_interpreter ["prog"] in
  result (help "Feb  5 2014" "12:00:00" tool_heap it) = Ok tt ∧
  cout_text (trace (help "Feb  5 2014" "12:00:00" tool_heap it))
    = help_text "Feb  5 2014" "12:00:00" (registry tool_heap it).*2 ∧
  diagnostics (trace (help "Feb  5 2014" "12:00:00" tool_heap it)) = [] ∧
  commands_ it = Some <$> (registry tool_heap it).*1.
Proof.
  apply (help_prints_listing "Feb  5 2014" "12:00:00" tool_heap
           (tool_interpreter ["prog"])).
  apply tool_live.
Defined.

(** The listing of the sample application, as it appears on the screen. *)
Example help_text_tool :
  help_text "Feb  5 2014" "12:00:00"
    (registry tool_heap (tool_interpreter ["prog"])).*2
  = "built Feb  5 2014 12:00:00" +:+ nl +:+ nl +:+
    "Commands:" +:+ nl +:+
    "add <x> <y> " +:+ nl +:+
    "version " +:+ nl.
Proof. reflexivity. Qed.

Lemma help_argumentName_in_range_witness :
  ∃ c, Some 1%positive ∈ commands_ (tool_interpreter ["prog"]) ∧
       tool_heap !! 1%positive = Some c ∧
       0 ≤ 1 < command_base.argumentCount c.
Proof.
  apply (help_argumentName_in_range "Feb  5 2014" "12:00:00" tool_heap
           (tool_interpreter ["prog"]) 1%positive 1).
  vm_compute. repeat first [apply list_elem_of_here | apply list_elem_of_further].
Defined.

(** [prog add 12abc 4]: the first argument is no number, and [get<int>]
    returns 12 all the same; the command runs and [run()] returns 0. *)
Lemma get_int_accepts_trailing_text :
  let it := add_interpreter ["prog"; "add"; "12abc"; "4"] in
  numeric "12abc" = false ∧
  get_int it 0 = Ok 12 ∧
  run "Feb  5 2014" "12:00:00" add_heap it = MkM [CallRun 1%positive] (Ok 0).
Proof. split_and!; reflexivity. Qed.

Lemma add_first_match (argv : list string) :
  first_match add_heap (add_interpreter argv) "add" 0 1%positive add_command.
Proof. apply first_match_head; [by split | reflexivity]. Qed.

Lemma get_int_converts_leading_numeral_witness :
  let it := add_interpreter ["prog"; "add"; "x3"; "4"] in
  get_int it 0 = Throw invalid_argument ∧
  run "Feb  5 2014" "12:00:00" add_heap it
  = MkM [CallRun 1%positive] (Throw invalid_argument).
Proof.
  destruct (get_int_converts_leading_numeral "Feb  5 2014" "12:00:00"
              (add_interpreter ["prog"; "add"; "x3"; "4"]) 0
              EmptyString EmptyString EmptyString "x3")
    as [Hget Hrun].
  - vm_compute. split; discriminate.
  - reflexivity.
  - reflexivity.
  - by left.
  - reflexivity.
  - reflexivity.
  - intros _ _. split; reflexivity.
  - split; [exact Hget|].
    apply (Hrun add_heap "add" 0%nat 1%positive add_command
             (λ x, y ← get_int (add_interpreter ["prog"; "add"; "x3"; "4"]) 1;
                   let sum := x + y in mret true)).
    + vm_compute. discriminate.
    + reflexivity.
    + apply add_first_match.
    + reflexivity.
    + reflexivity.
    + reflexivity.
Defined.

(** ** Further properties of [help()] and [run()] *)

Lemma result_bind {A B : Type} (m : M A) (f : A → M B) :
  result (m ≫= f)
  = match result m with
    | Ok a => result (f a)
    | Throw e => Throw e
    | Fault => Fault
    end.
Proof. unfold mbind, M_bind. by destruct (result m). Qed.

Lemma trace_bind {A B : Type} (m : M A) (f : A → M B) :
  trace (m ≫= f)
  = match result m with
    | Ok a => trace m ++ trace (f a)
    | _ => trace m
    end.
Proof. unfold mbind, M_bind. by destruct (result m). Qed.

Lemma invoked_nil (t : list event) :
  (∀ l, CallRun l ∉ t) → invoked t = [].
Proof.
  induction t as [|e t IH]; intros Hno; [done|].
  assert (invoked t = []) as Ht.
  { apply IH. intros l Hl. apply (Hno l). by right. }
  destruct e as [s|s|l i|l]; simpl; try done.
  exfalso. apply (Hno l). left.
Qed.

Lemma diagnostics_nil (t : list event) :
  (∀ s, Printf s ∉ t) → diagnostics t = [].
Proof.
  induction t as [|e t IH]; intros Hno; [done|].
  assert (diagnostics t = []) as Ht.
  { apply IH. intros s Hs. apply (Hno s). by right. }
  destruct e as [s|s|l i|l]; simpl; try done.
  exfalso. apply (Hno s). left.
Qed.

(** The events of a line of the listing, whatever the heap holds. *)
Lemma help_line_events (h : heap) (c : command_ptr) (e : event) :
  e ∈ trace (help_line h c) →
  (∃ s, e = Cout s) ∨ (∃ l i, e = CallArgumentName l i).
Proof.
  unfold help_line, deref. destruct c as [l|]; [|by intros ?%elem_of_nil].
  destruct (h !! l) as [o|]; [|by intros ?%elem_of_nil].
  rewrite bind_lift_Ok. unfold cout. rewrite !bind_emit.
  simpl. rewrite !elem_of_cons. intros [->|[->|He]]; [by left; eexists..|].
  apply trace_bind_elem in He as [He | (_ & _ & He)].
  - apply for_each_elem in He as (j & _ & He). simpl in He.
    rewrite !elem_of_cons in He.
    destruct He as [->|[->|[->|[->|He]]]];
      [by left; eexists|by right; eexists _, _|by left; eexists..|].
    by apply elem_of_nil in He.
  - apply list_elem_of_singleton in He as ->. by left; eexists.
Qed.

Lemma help_events (DATE TIME : string) (h : heap) (it : commandlineinterpreter)
    (e : event) :
  e ∈ trace (help DATE TIME h it) →
  (∃ s, e = Cout s) ∨ (∃ l i, e = CallArgumentName l i).
Proof.
  unfold help, cout, endl. rewrite !bind_emit. simpl.
  rewrite !elem_of_cons. intros He.
  repeat (destruct He as [->|He]; [by left; eexists|]).
  apply for_each_elem in He as (p & _ & He). by apply help_line_events in He.
Qed.

Lemma help_trace_silent (DATE TIME : string) (h : heap)
    (it : commandlineinterpreter) :
  diagnostics (trace (help DATE TIME h it)) = [] ∧
  invoked (trace (help DATE TIME h it)) = [].
Proof.
  split.
  - apply diagnostics_nil. intros s Hs.
    apply help_events in Hs as [[? ?]|(? & ? & ?)]; done.
  - apply invoked_nil. intros l Hl.
    apply help_events in Hl as [[? ?]|(? & ? & ?)]; done.
Qed.

Lemma for_each_result_Ok {A : Type} (f : A → M unit) (l : list A) :
  result (for_each f l) = Ok tt ↔ ∀ x, x ∈ l → result (f x) = Ok tt.
Proof.
  induction l as [|x l IH]; simpl.
  - split; [by intros _ x ?%elem_of_nil | done].
  - rewrite result_bind. split.
    + intros Hres y Hy. destruct (result (f x)) as [[]| |] eqn:Hx; [|done..].
      apply elem_of_cons in Hy as [->|Hy]; [done|]. by apply IH.
    + intros Hall. rewrite (Hall x) by left. apply IH.
      intros y Hy. apply Hall. by right.
Qed.

Lemma help_line_result (h : heap) (c : command_ptr) :
  result (help_line h c) = Ok tt ↔ ∃ l o, c = Some l ∧ h !! l = Some o.
Proof.
  split.
  - unfold help_line, deref. destruct c as [l|]; [|done].
    destruct (h !! l) as [o|] eqn:Hl; [|done]. intros _. by exists l, o.
  - intros (l & o & -> & Hl). by rewrite (help_line_live h l o Hl).
Qed.

Lemma help_result_for_each (DATE TIME : string) (h : heap)
    (it : commandlineinterpreter) :
  result (help DATE TIME h it) = result (for_each (help_line h) (commands_ it)).
Proof. unfold help, cout, endl. by rewrite !result_bind_emit. Qed.

Lemma help_result_live (DATE TIME : string) (h : heap)
    (it : commandlineinterpreter) :
  result (help DATE TIME h it) = Ok tt ↔ live h it.
Proof.
  rewrite help_result_for_each, for_each_result_Ok. split.
  - intros Hall k p Hk. apply help_line_result, Hall.
    by eapply list_elem_of_lookup_2.
  - intros Hlive p [k Hk]%list_elem_of_lookup_1.
    apply help_line_result. by apply (Hlive k).
Qed.

Lemma help_result_cases (DATE TIME : string) (h : heap)
    (it : commandlineinterpreter) :
  result (help DATE TIME h it) = Ok tt ∨ result (help DATE TIME h it) = Fault.
Proof.
  rewrite help_result_for_each.
  induction (commands_ it) as [|p cs IH]; [by left|].
  change (for_each (help_line h) (p :: cs))
    with (help_line h p ;; for_each (help_line h) cs).
  rewrite result_bind.
  destruct p as [l|]; [|by right]. destruct (h !! l) as [o|] eqn:Hl.
  - by rewrite (help_line_live h l o Hl).
  - right. unfold help_line, deref. by rewrite Hl.
Qed.

(** The failure paths end with [help(); return 1;]. *)
Lemma help_then_fail_cases (DATE TIME : string) (h : heap)
    (it : commandlineinterpreter) :
  trace (help DATE TIME h it ;; mret 1) = trace (help DATE TIME h it) ∧
  (result (help DATE TIME h it ;; mret 1) = Ok 1 ∧ live h it ∨
   result (help DATE TIME h it ;; mret 1) = Fault ∧ ¬ live h it).
Proof.
  rewrite trace_bind, result_bind.
  destruct (help_result_cases DATE TIME h it) as [Hok|Hfault].
  - rewrite Hok. split; [apply app_nil_r|]. left. split; [done|].
    by apply (help_result_live DATE TIME).
  - rewrite Hfault. split; [done|]. right. split; [done|].
    intros Hlive%(help_result_live DATE TIME). congruence.
Qed.

(** [std::find_if] over the registry, in any state: it never throws and
    prints nothing; it returns [end()] after a registry of live commands
    with other names, the first match after live commands with other
    names, and it faults otherwise. *)
Lemma find_if_matches_cases (h : heap) (name : string) (cs : list command_ptr) :
  find_if (matches h name) cs = MkM [] Fault ∨
  (find_if (matches h name) cs = MkM [] (Ok []) ∧
   ∀ j p, cs !! j = Some p →
     ∃ l c, p = Some l ∧ h !! l = Some c ∧ command_base.command c ≠ name) ∨
  (∃ k l c, find_if (matches h name) cs = MkM [] (Ok (drop k cs)) ∧
     cs !! k = Some (Some l) ∧ h !! l = Some c ∧ command_base.command c = name ∧
     ∀ j p, (j < k)%nat → cs !! j = Some p →
       ∃ l' c', p = Some l' ∧ h !! l' = Some c' ∧ command_base.command c' ≠ name).
Proof.
  induction cs as [|p cs IH].
  - right. left. split; [done|]. intros j p Hj. by destruct j.
  - destruct p as [l|]; [|by left].
    destruct (h !! l) as [c|] eqn:Hl.
    2:{ left. simpl. unfold matches, deref. by rewrite Hl. }
    rewrite (find_if_cons _ _ _ _ (matches_live h name l c Hl)).
    destruct (String.eqb_spec (command_base.command c) name) as [Heq|Hne].
    + right. right. exists 0%nat, l, c. split_and!; [done..|]. intros j p Hj. lia.
    + destruct IH as [Hfault|[[Hnone Hall]|(k & l' & c' & Hfind & Hk & Hl' & Hc' & Hbefore)]].
      * by left.
      * right. left. split; [done|]. intros [|j] p Hj.
        -- simplify_eq/=. by exists l, c.
        -- by apply (Hall j).
      * right. right. exists (S k), l', c'. split_and!; [done..|].
        intros [|j] p Hj Hp.
        -- simplify_eq/=. by exists l, c.
        -- apply (Hbefore j); [lia|done].
Qed.

(** Every way [run()] can go, in any state. *)
Lemma run_cases (DATE TIME : string) (h : heap) (it : commandlineinterpreter) :
  (argc_ it < 2 ∧ run DATE TIME h it = (help DATE TIME h it ;; mret 1)) ∨
  (2 ≤ argc_ it ∧ run DATE TIME h it = MkM [] Fault ∧
   (argv_ it !! 1%nat = None ∨ ¬ live h it)) ∨
  (∃ d, 2 ≤ argc_ it ∧
     run DATE TIME h it = (printf d ;; help DATE TIME h it ;; mret 1)) ∨
  (∃ name k l c, 2 ≤ argc_ it ∧ argv_ it !! 1%nat = Some name ∧
     first_match h it name k l c ∧
     command_base.argumentCount c = argc_ it - 2 ∧
     run DATE TIME h it
     = MkM [CallRun l]
         (outcome_map (λ b : bool, if b then 0 else 1) (command_base.run c it))).
Proof.
  destruct (Z.lt_ge_cases (argc_ it) 2) as [Hlt|Hge].
  { left. split; [done|]. unfold run. by destruct (Z.ltb_spec (argc_ it) 2); [|lia]. }
  right. destruct (argv_ it !! 1%nat) as [name|] eqn:Hname.
  2:{ left. split_and!; [done| |by left]. unfold run.
      destruct (Z.ltb_spec (argc_ it) 2); [lia|]. unfold read_argv.
      change ((1 <? 0) || (INT_MAX <? 1)) with false.
      change (Z.to_nat 1) with 1%nat. by rewrite Hname. }
  destruct (find_if_matches_cases h name (commands_ it))
    as [Hfault|[[Hnone Hall]|(k & l & c & Hfind & Hk & Hl & Hc & Hbefore)]].
  - left. split_and!; [done| |right].
    + unfold run. destruct (Z.ltb_spec (argc_ it) 2); [lia|].
      by rewrite (read_argv_1 _ _ Hname), bind_lift_Ok, Hfault.
    + intros Hlive.
      destruct (find_if_matches_cases h name (commands_ it))
        as [Hfault'|[[Hnone Hall]|(k & l & c & Hfind & Hk & Hl & Hc & Hbefore)]];
        [|congruence..].
      clear Hfault'. revert Hfault Hlive. unfold live.
      induction (commands_ it) as [|p cs IH]; [done|]. intros Hfault Hlive.
      destruct (Hlive 0%nat p eq_refl) as (l & c & -> & Hl).
      rewrite (find_if_cons _ _ _ _ (matches_live h name l c Hl)) in Hfault.
      destruct (String.eqb _ _); [done|].
      apply IH; [done|]. intros j q. apply (Hlive (S j)).
  - right. left. exists ("Unknown command: " +:+ name +:+ nl). split; [done|].
    unfold run. destruct (Z.ltb_spec (argc_ it) 2); [lia|].
    rewrite (read_argv_1 _ _ Hname), bind_lift_Ok, Hnone.
    change (MkM [] (Ok ?a) ≫= ?f) with (lift (Ok a) ≫= f). by rewrite bind_lift_Ok.
  - assert (first_match h it name k l c) as Hfirst by done.
    pose proof (run_first_match DATE TIME h it name k l c Hge Hname Hfirst) as Hrun.
    destruct (Z.eqb_spec (command_base.argumentCount c) (argc_ it - 2)) as [Harity|Harity].
    + right. right. by exists name, k, l, c.
    + right. left.
      by exists ("Wrong number of arguments for command: " +:+ name +:+ nl).
Qed.

(** X1. In every state, also one in which it runs into a dangling or null
    entry, [help()] writes to [cout] only: it prints no diagnostic with
    [printf] and enters no command's [run]. *)
Theorem help_writes_only_to_cout (DATE TIME : string) (h : heap)
    (it : commandlineinterpreter) :
  diagnostics (trace (help DATE TIME h it)) = [] ∧
  invoked (trace (help DATE TIME h it)) = [].
Proof. apply help_trace_silent. Qed.


(** X2. [help()] returns exactly when every entry of the registry points
    to a live command; with a null or dangling entry it runs into undefined
    behaviour, and it never throws. *)
Theorem help_returns_iff_live (DATE TIME : string) (h : heap)
    (it : commandlineinterpreter) :
  (result (help DATE TIME h it) = Ok tt ↔ live h it) ∧
  (result (help DATE TIME h it) = Ok tt ∨ result (help DATE TIME h it) = Fault).
Proof. split; [apply help_result_live | apply help_result_cases]. Qed.

(** X3. In every state [run()] enters at most one command: either no
    command's [run] is entered at all, or the whole trace of [run()] is the
    entry into one command (and then neither diagnostic nor help is
    printed). *)
Theorem run_enters_at_most_one_command (DATE TIME : string) (h : heap)
    (it : commandlineinterpreter) :
  invoked (trace (run DATE TIME h it)) = [] ∨
  ∃ l, trace (run DATE TIME h it) = [CallRun l].
Proof.
  destruct (help_trace_silent DATE TIME h it) as [_ Hquiet].
  destruct (help_then_fail_cases DATE TIME h it) as [Htrace _].
  destruct (run_cases DATE TIME h it)
    as [[_ ->]|[(_ & -> & _)|[(d & _ & ->)|(name & k & l & c & _ & _ & _ & _ & ->)]]].
  - left. by rewrite Htrace.
  - by left.
  - left. unfold printf. rewrite bind_emit.
    change (trace (MkM ?t _)) with t.
    change (invoked (Printf d :: ?t)) with (invoked t). by rewrite Htrace.
  - right. by exists l.
Qed.

(** X4. In every state, [run()] returns 0 only if [argv[1]] names a
    registered command (the first of that name), [argc - 2] is its
    [argumentCount()], that command was entered and it returned [true]. *)
Theorem run_returns_zero_only_on_success (DATE TIME : string) (h : heap)
    (it : commandlineinterpreter) :
  result (run DATE TIME h it) = Ok 0 →
  ∃ name k l c, 2 ≤ argc_ it ∧ argv_ it !! 1%nat = Some name ∧
    first_match h it name k l c ∧
    command_base.argumentCount c = argc_ it - 2 ∧
    trace (run DATE TIME h it) = [CallRun l] ∧
    command_base.run c it = Ok true.
Proof.
  destruct (help_then_fail_cases DATE TIME h it) as [_ Hres].
  destruct (run_cases DATE TIME h it)
    as [[_ ->]|[(_ & -> & _)|[(d & _ & ->)|(name & k & l & c & ? & ? & ? & ? & ->)]]].
  - destruct Hres as [[-> _]|[-> _]]; done.
  - done.
  - unfold printf. rewrite bind_emit. change (result (MkM _ ?r)) with r.
    destruct Hres as [[-> _]|[-> _]]; done.
  - change (result (MkM _ ?r)) with r. intros Hzero.
    exists name, k, l, c. split_and!; [done..|].
    by destruct (command_base.run c it) as [[]| |].
Qed.

(** X5. On a registry of live commands, with [argv[1]] present whenever
    [argc_ >= 2], the dispatcher itself is free of undefined behaviour and
    of exceptions: [run()] returns 0 or 1, or else it has entered a command
    (and done nothing else) and ends the way that command's [run] ended,
    with its exception or its fault. *)
Theorem run_fails_only_in_command (DATE TIME : string) (h : heap)
    (it : commandlineinterpreter) :
  live h it → (2 ≤ argc_ it → is_Some (argv_ it !! 1%nat)) →
  (∃ code, result (run DATE TIME h it) = Ok code ∧ (code = 0 ∨ code = 1)) ∨
  ∃ name k l c, first_match h it name k l c ∧
    trace (run DATE TIME h it) = [CallRun l] ∧
    ((∃ e, command_base.run c it = Throw e ∧
           result (run DATE TIME h it) = Throw e) ∨
     (command_base.run c it = Fault ∧ result (run DATE TIME h it) = Fault)).
Proof.
  intros Hlive Hargv.
  destruct (help_then_fail_cases DATE TIME h it) as [_ [[Hres _]|[_ Hdead]]]; [|done].
  destruct (run_cases DATE TIME h it)
    as [[_ ->]|[(Hge & _ & [Hnone|Hdead])|[(d & _ & ->)|(name & k & l & c & ? & ? & ? & ? & ->)]]].
  - left. exists 1. split; [done|by right].
  - destruct (Hargv Hge) as [? ?]. congruence.
  - done.
  - left. exists 1. unfold printf. rewrite bind_emit.
    change (result (MkM _ ?r)) with r. split; [done|by right].
  - change (result (MkM _ ?r)) with r. change (trace (MkM ?t _)) with t.
    destruct (command_base.run c it) as [[]|e|] eqn:Hrun.
    + left. exists 0. split; [done|by left].
    + left. exists 1. split; [done|by right].
    + right. exists name, k, l, c. split_and!; [done..|]. left. by exists e.
    + right. exists name, k, l, c. split_and!; [done..|]. by right.
Qed.

(** ** Registration *)

Lemma commands_register (p : command_ptr) (it : commandlineinterpreter) :
  commands_ (register_command p it) = commands_ it ++ [p].
Proof. reflexivity. Qed.

Lemma first_match_register (h : heap) (it : commandlineinterpreter)
    (p : command_ptr) (name : string) (k : nat) (l : loc) (c : command_base.t) :
  first_match h it name k l c → first_match h (register_command p it) name k l c.
Proof.
  intros ([Hk Hl] & Hc & Hbefore).
  assert (k < length (commands_ it))%nat as Hlen by (by eapply lookup_lt_Some).
  split_and!; [|done..|].
  - split; [|done]. rewrite commands_register. by rewrite lookup_app_l.
  - intros j q Hj Hq. apply (Hbefore j); [done|].
    rewrite commands_register in Hq. by rewrite lookup_app_l in Hq by lia.
Qed.

Lemma live_register (h : heap) (it : commandlineinterpreter)
    (l : loc) (c : command_base.t) :
  live h it → h !! l = Some c → live h (register_command (Some l) it).
Proof.
  intros Hlive Hl k p Hk. rewrite commands_register in Hk.
  apply lookup_app_Some in Hk as [Hk|[_ Hk]]; [by apply (Hlive k)|].
  apply list_lookup_singleton_Some in Hk as [_ <-]. by exists l, c.
Qed.

Lemma registry_register (h : heap) (it : commandlineinterpreter)
    (l : loc) (c : command_base.t) :
  h !! l = Some c →
  registry h (register_command (Some l) it) = registry h it ++ [(l, c)].
Proof.
  intros Hl. unfold registry. rewrite commands_register, omap_app.
  simpl. by rewrite Hl.
Qed.

Lemma first_match_registered_last (h : heap) (it : commandlineinterpreter)
    (l : loc) (c : command_base.t) :
  live h it → h !! l = Some c →
  (∀ k l' c', registered h it k l' c' →
     command_base.command c' ≠ command_base.command c) →
  first_match h (register_command (Some l) it) (command_base.command c)
    (length (commands_ it)) l c.
Proof.
  intros Hlive Hl Hnew. split_and!; [|done..|].
  - split; [|done]. rewrite commands_register. rewrite lookup_app_r by lia.
    by rewrite Nat.sub_diag.
  - intros j p Hj Hp. rewrite commands_register in Hp.
    rewrite lookup_app_l in Hp by lia.
    destruct (Hlive j p Hp) as (l' & c' & -> & Hl').
    exists l', c'. split_and!; [done..|]. by apply (Hnew j l').
Qed.

Lemma help_lines_snoc (cs : list command_base.t) (c : command_base.t) :
  foldr (λ c acc, help_text_line c +:+ acc) EmptyString (cs ++ [c])
  = foldr (λ c acc, help_text_line c +:+ acc) EmptyString cs +:+ help_text_line c.
Proof.
  induction cs as [|c' cs IH].
  - simpl. by rewrite string_app_nil, string_app_nil_r.
  - simpl. by rewrite IH, string_app_assoc.
Qed.

(** X6. Registering one more command (or a null or dangling pointer) does
    not change where an invocation goes that matched before: the first
    entry named [argv[1]] is still the one entered, and nothing else
    happens. *)
Theorem register_command_keeps_dispatch (DATE TIME : string) (h : heap)
    (it : commandlineinterpreter) (p : command_ptr)
    (name : string) (k : nat) (l : loc) (c : command_base.t) :
  2 ≤ argc_ it → argv_ it !! 1%nat = Some name →
  first_match h it name k l c →
  command_base.argumentCount c = argc_ it - 2 →
  trace (run DATE TIME h it) = [CallRun l] ∧
  trace (run DATE TIME h (register_command p it)) = [CallRun l] ∧
  result (run DATE TIME h (register_command p it))
  = outcome_map (λ b : bool, if b then 0 else 1)
      (command_base.run c (register_command p it)).
Proof.
  intros Hargc Hname Hfirst Harity.
  rewrite (run_first_match DATE TIME h it name k l c) by done.
  rewrite (run_first_match DATE TIME h (register_command p it) name k l c);
    [|done..|by apply first_match_register].
  cbn [register_command argc_].
  by destruct (Z.eqb_spec (command_base.argumentCount c) (argc_ it - 2)).
Qed.

(** X7. Registration followed by dispatch: a name that [run()] reports as
    unknown is, once a live command of that name and of the right
    [argumentCount()] is registered, dispatched to that command. *)
Theorem register_command_then_run (DATE TIME : string) (h : heap)
    (it : commandlineinterpreter) (l : loc) (c : command_base.t) :
  live h it → h !! l = Some c →
  (∀ k l' c', registered h it k l' c' →
     command_base.command c' ≠ command_base.command c) →
  2 ≤ argc_ it → argv_ it !! 1%nat = Some (command_base.command c) →
  command_base.argumentCount c = argc_ it - 2 →
  result (run DATE TIME h it) = Ok 1 ∧
  invoked (trace (run DATE TIME h it)) = [] ∧
  run DATE TIME h (register_command (Some l) it)
  = MkM [CallRun l]
      (outcome_map (λ b : bool, if b then 0 else 1)
         (command_base.run c (register_command (Some l) it))).
Proof.
  intros Hlive Hl Hnew Hargc Hname Harity.
  rewrite (run_no_match DATE TIME h it (command_base.command c)) by done.
  destruct (help_trace_silent DATE TIME h it) as [_ Hquiet].
  split_and!; [done..|].
  rewrite (run_first_match DATE TIME h (register_command (Some l) it)
             (command_base.command c) (length (commands_ it)) l c);
    [|done..|by apply first_match_registered_last].
  cbn [register_command argc_].
  by destruct (Z.eqb_spec (command_base.argumentCount c) (argc_ it - 2)).
Qed.

(** X8. Registering a live command adds exactly its line at the end of
    the help listing and leaves the listing before it as it was. *)
Theorem register_command_extends_help (DATE TIME : string) (h : heap)
    (it : commandlineinterpreter) (l : loc) (c : command_base.t) :
  live h it → h !! l = Some c →
  result (help DATE TIME h (register_command (Some l) it)) = Ok tt ∧
  cout_text (trace (help DATE TIME h (register_command (Some l) it)))
  = cout_text (trace (help DATE TIME h it)) +:+ help_text_line c.
Proof.
  intros Hlive Hl.
  pose proof (live_register h it l c Hlive Hl) as Hlive'.
  split; [by apply (help_result_live DATE TIME)|].
  rewrite !help_trace_text by done. rewrite (registry_register h it l c Hl).
  unfold help_text. rewrite fmap_app. simpl.
  rewrite help_lines_snoc. by rewrite !string_app_assoc.
Qed.

(** ** [clear()] and the destructor *)

Lemma clear_cases (h : heap) (it : commandlineinterpreter) :
  clear h it = Ok (h, it) ∨ clear h it = Fault.
Proof.
  assert (clear_entries h (commands_ it) = Ok (h, commands_ it) ∨
          clear_entries h (commands_ it) = Fault) as [Hok|Hfault].
  { induction (commands_ it) as [|[l|] cs IH]; [by left| |].
    - right. by apply (clear_entries_command_faults h _ l), list_elem_of_here.
    - simpl. destruct IH as [Hrest|Hrest]; rewrite Hrest; [by left|by right]. }
  - left. unfold clear. rewrite Hok. by destruct it.
  - right. unfold clear. by rewrite Hfault.
Qed.

(** X9. [clear()] is defined only on a registry without commands: it
    returns exactly when every entry is [nullptr], and then it changes
    nothing; one registered command makes its [delete c] undefined
    ([command_base] has no virtual destructor), for [clear()] and for the
    destructor alike. It never throws. *)
Theorem clear_returns_iff_all_null (h : heap) (it : commandlineinterpreter) :
  ((∃ h' it', clear h it = Ok (h', it')) ↔ ∀ p, p ∈ commands_ it → p = nullptr) ∧
  (∀ h' it', clear h it = Ok (h', it') → h' = h ∧ it' = it) ∧
  (∀ l, Some l ∈ commands_ it → clear h it = Fault ∧ destructor h it = Fault) ∧
  (clear h it = Ok (h, it) ∨ clear h it = Fault).
Proof.
  split_and!.
  - split.
    + intros (h' & it' & Hclear). by apply clear_Ok_inv in Hclear as (_ & _ & ?).
    + intros Hnull. exists h, it. by apply clear_all_null.
  - intros h' it' Hclear. by apply clear_Ok_inv in Hclear as (? & ? & _).
  - intros l Hl. pose proof (clear_command_faults h it l Hl) as Hfault.
    split; [done|]. unfold destructor. by rewrite Hfault.
  - apply clear_cases.
Qed.



(** ** The instances of [get<T>] *)

(** [strtol] on an argument cut into white space, sign, digits and the
    rest. *)
Lemma strtol_decomposed (ws sg ds rest : string) :
  all_of isspace ws = true →
  sg = EmptyString ∨ sg = "+" ∨ sg = "-" →
  all_of isdigit ds = true →
  head_is isdigit rest = false →
  (ds = EmptyString → sg = EmptyString →
   head_is isspace rest = false ∧ head_is issign rest = false) →
  strtol (ws +:+ sg +:+ ds +:+ rest)
  = if String.eqb ds EmptyString then None else Some (signed sg ds).
Proof.
  intros Hws Hsg Hds Hrest Hmax. unfold strtol.
  rewrite (skip_spaces_app _ _ Hws). fold (strtol (sg +:+ ds +:+ rest)).
  assert (read_digits 0 (ds +:+ rest) = decimal ds) as Hval.
  { rewrite read_digits_app by done. lia. }
  assert (head_is isdigit (ds +:+ rest) = negb (String.eqb ds EmptyString)) as Hhead.
  { rewrite head_is_app. destruct (String.eqb ds EmptyString) eqn:He; [done|].
    by apply all_of_head. }
  unfold signed.
  destruct Hsg as [->|[->| ->]].
  - rewrite string_app_nil.
    rewrite strtol_unsigned.
    + rewrite Hhead, Hval. by destruct (String.eqb ds EmptyString).
    + rewrite head_is_app. destruct (String.eqb_spec ds EmptyString) as [->|Hne].
      * by apply Hmax.
      * apply head_digit_not_space_sign. by apply all_of_head, String.eqb_neq.
    + rewrite head_is_app. destruct (String.eqb_spec ds EmptyString) as [->|Hne].
      * by apply Hmax.
      * apply head_digit_not_space_sign. by apply all_of_head, String.eqb_neq.
  - rewrite string_app_cons, string_app_nil, strtol_signed by done.
    rewrite Hhead, Hval. by destruct (String.eqb ds EmptyString).
  - rewrite string_app_cons, string_app_nil, strtol_signed by done.
    rewrite Hhead, Hval. by destruct (String.eqb ds EmptyString).
Qed.

Lemma read_argv_Some (it : commandlineinterpreter) (i : Z) (s : string) :
  0 ≤ i ≤ INT_MAX → argv_ it !! Z.to_nat i = Some s → read_argv it i = Ok s.
Proof.
  intros Hrange Hs. unfold read_argv.
  destruct (Z.ltb_spec i 0); [lia|]. destruct (Z.ltb_spec INT_MAX i); [lia|].
  simpl. by rewrite Hs.
Qed.

Lemma read_argv_cases (it : commandlineinterpreter) (i : Z) :
  (read_argv it i = Fault ∧
   (i < 0 ∨ INT_MAX < i ∨ Z.of_nat (length (argv_ it)) ≤ i)) ∨
  (∃ s, read_argv it i = Ok s ∧ argv_ it !! Z.to_nat i = Some s ∧
        0 ≤ i ≤ INT_MAX ∧ i < Z.of_nat (length (argv_ it))).
Proof.
  unfold read_argv.
  destruct (Z.ltb_spec i 0); [left; split; [done|lia]|].
  destruct (Z.ltb_spec INT_MAX i); [left; split; [done|lia]|]. simpl.
  destruct (argv_ it !! Z.to_nat i) as [s|] eqn:Hs.
  - right. exists s. apply lookup_lt_Some in Hs as Hlt. split_and!; [done|done|lia..].
  - left. apply lookup_ge_None in Hs. split; [done|lia].
Qed.

(** X13. The arity test of [run()] protects the accessors: when [argc_]
    is the number of entries of [argv] and the command has
    [argumentCount() = argc_ - 2], every [get<T>(i)] with
    [0 <= i < argumentCount()], whatever its conversion, is that
    conversion applied to the existing entry [argv[i + 2]]; so are
    [get<int>], [get<long>], [get<unsigned long>],
    [get<unsigned long long>] and [get<std::string>]. *)
Theorem get_within_arity {A : Type} (convert : string → outcome A)
    (LONG_BITS : Z) (it : commandlineinterpreter) (c : command_base.t) (i : Z) :
  argc_ it = Z.of_nat (length (argv_ it)) → argc_ it ≤ INT_MAX →
  command_base.argumentCount c = argc_ it - 2 →
  0 ≤ i < command_base.argumentCount c →
  ∃ s, argv_ it !! Z.to_nat (i + 2) = Some s ∧
    get_with convert it i = convert s ∧
    get_int it i = stoi s ∧
    get_long LONG_BITS it i = stol LONG_BITS s ∧
    get_unsigned_long LONG_BITS it i = strtoul LONG_BITS s ∧
    get_unsigned_long_long it i = strtoul 64 s ∧
    get_string it i = Ok (take_word (skip_spaces s)).
Proof.
  intros Hargc Hint Harity Hi.
  destruct (read_argv_cases it (i + 2)) as [[_ Hout]|(s & Hread & Hs & _)]; [lia|].
  exists s. unfold get_with, get_int, get_long, get_unsigned_long,
    get_unsigned_long_long, get_string. rewrite Hread.
  split_and!; [done|reflexivity..].
Qed.

Lemma read_digits_of_uint_acc (d : Decimal.uint) (acc : positive) :
  read_digits (Z.pos acc) (NilEmpty.string_of_uint d) = Z.pos (Pos.of_uint_acc d acc).
Proof.
  revert acc. induction d; intros acc; [done|..];
    cbn [NilEmpty.string_of_uint read_digits Pos.of_uint_acc];
    rewrite <-IHd;
    match goal with |- context [isdigit ?c] => change (isdigit c) with true end;
    cbv iota; f_equal;
    match goal with
    | |- context [digit_value ?c] =>
        let v := eval vm_compute in (digit_value c) in
        change (digit_value c) with v
    end; lia.
Qed.

Lemma read_digits_of_uint (d : Decimal.uint) :
  read_digits 0 (NilEmpty.string_of_uint d) = Z.of_N (Pos.of_uint d).
Proof.
  induction d; [done|..];
    cbn [NilEmpty.string_of_uint read_digits Pos.of_uint];
    match goal with |- context [isdigit ?c] => change (isdigit c) with true end;
    cbv iota;
    match goal with
    | |- context [digit_value ?c] =>
        let v := eval vm_compute in (digit_value c) in
        change (0 * 10 + digit_value c) with v
    end; [done|..]; apply read_digits_of_uint_acc.
Qed.

Lemma head_digit_of_uint (d : Decimal.uint) :
  d ≠ Decimal.Nil → head_is isdigit (NilEmpty.string_of_uint d) = true.
Proof. by destruct d. Qed.

Lemma string_of_uint_nonnil (d : Decimal.uint) :
  d ≠ Decimal.Nil → NilZero.string_of_uint d = NilEmpty.string_of_uint d.
Proof. by destruct d. Qed.

Lemma strtol_to_string (z : Z) : strtol (to_string z) = Some z.
Proof.
  unfold to_string. destruct z as [|p|p]; [done|..]; simpl;
    rewrite (string_of_uint_nonnil _ (Unsigned.to_uint_nonnil p)).
  - pose proof (head_digit_of_uint (Pos.to_uint p) (Unsigned.to_uint_nonnil p)) as Hd.
    destruct (head_digit_not_space_sign _ Hd) as [Hsp Hsg].
    rewrite strtol_unsigned, Hd, read_digits_of_uint by done.
    by rewrite Unsigned.of_to.
  - pose proof (head_digit_of_uint (Pos.to_uint p) (Unsigned.to_uint_nonnil p)) as Hd.
    rewrite strtol_signed, Hd, read_digits_of_uint by done.
    by rewrite Unsigned.of_to.
Qed.

(** X14. Round trip: for every [int] value [z], [get<int>] on the decimal
    text of [z] returns [z]; and for every [long] value, [get<long>] on
    its decimal text returns it. *)
Theorem get_int_of_to_string (LONG_BITS : Z) (it : commandlineinterpreter)
    (index z : Z) :
  0 ≤ index + 2 ≤ INT_MAX →
  argv_ it !! Z.to_nat (index + 2) = Some (to_string z) →
  (INT_MIN ≤ z ≤ INT_MAX → get_int it index = Ok z) ∧
  (- 2 ^ (LONG_BITS - 1) ≤ z ≤ 2 ^ (LONG_BITS - 1) - 1 →
   get_long LONG_BITS it index = Ok z).
Proof.
  intros Hrange Hargv. unfold get_int, get_long.
  rewrite (read_argv_Some it _ _ Hrange Hargv). simpl.
  unfold stoi, stol. rewrite strtol_to_string. split; intros Hz.
  - destruct (Z.leb_spec INT_MIN z); [|lia]. by destruct (Z.leb_spec z INT_MAX); [|lia].
  - destruct (Z.leb_spec (- 2 ^ (LONG_BITS - 1)) z); [|lia].
    by destruct (Z.leb_spec z (2 ^ (LONG_BITS - 1) - 1)); [|lia].
Qed.

Lemma pow_long_ge (LONG_BITS : Z) : 32 ≤ LONG_BITS → 2 ^ 31 ≤ 2 ^ (LONG_BITS - 1).
Proof. intros Hbits. apply Z.pow_le_mono_r; lia. Qed.

(** X15. [get<long>] extends [get<int>] when [long] has at least 32 bits:
    where [get<int>] returns a value [get<long>] returns the same, the two
    read outside [argv] together and reject a text without digits
    together; a value [get<long>] returns is the one [get<int>] returns
    unless it is out of the range of [int]. *)
Theorem get_long_extends_get_int (LONG_BITS : Z) (it : commandlineinterpreter)
    (index : Z) :
  32 ≤ LONG_BITS →
  (∀ v, get_int it index = Ok v → get_long LONG_BITS it index = Ok v) ∧
  (∀ v, get_long LONG_BITS it index = Ok v →
        get_int it index = Ok v ∨ get_int it index = Throw out_of_range) ∧
  (get_int it index = Throw invalid_argument ↔
   get_long LONG_BITS it index = Throw invalid_argument) ∧
  (get_int it index = Fault ↔ get_long LONG_BITS it index = Fault).
Proof.
  intros Hbits%pow_long_ge. unfold get_int, get_long.
  destruct (read_argv it (index + 2)) as [s|e|]; [|done..]. simpl.
  unfold stoi, stol, INT_MIN, INT_MAX. destruct (strtol s) as [v|]; [|done].
  destruct (Z.leb_spec (- 2 ^ 31) v), (Z.leb_spec v (2 ^ 31 - 1)),
    (Z.leb_spec (- 2 ^ (LONG_BITS - 1)) v), (Z.leb_spec v (2 ^ (LONG_BITS - 1) - 1));
    simpl; split_and!; try done; try lia; try (intros ? [= <-]; auto).
Qed.

Lemma decimal_nonneg (ds : string) : all_of isdigit ds = true → 0 ≤ decimal ds.
Proof.
  induction ds as [|d ds IH]; [done|]. simpl.
  intros [Hd Hds]%andb_true_iff. specialize (IH Hds).
  assert (0 ≤ digit_value d).
  { unfold isdigit in Hd. unfold digit_value. lia. }
  assert (0 ≤ 10 ^ Z.of_nat (String.length ds)) by (apply Z.pow_nonneg; lia).
  nia.
Qed.

(** X16. [get<unsigned long>] (and [get<unsigned long long>], with 64
    bits) does not reject a minus sign: with digits of value [d] that fits
    the type, the text [-d] is converted to [2 ^ bits - d]; only a value
    of more than [bits] bits raises [std::out_of_range]. *)
Theorem get_unsigned_long_wraps_negative (LONG_BITS : Z)
    (it : commandlineinterpreter) (index : Z) (ws sg ds rest : string) :
  0 ≤ index + 2 ≤ INT_MAX →
  argv_ it !! Z.to_nat (index + 2) = Some (ws +:+ sg +:+ ds +:+ rest) →
  all_of isspace ws = true →
  sg = EmptyString ∨ sg = "+" ∨ sg = "-" →
  all_of isdigit ds = true → ds ≠ EmptyString →
  head_is isdigit rest = false →
  get_unsigned_long LONG_BITS it index
  = (if decimal ds <=? 2 ^ LONG_BITS - 1
     then Ok (if String.eqb sg "-" && (0 <? decimal ds)
              then 2 ^ LONG_BITS - decimal ds else decimal ds)
     else Throw out_of_range) ∧
  get_unsigned_long_long it index = get_unsigned_long 64 it index.
Proof.
  intros Hrange Hargv Hws Hsg Hds Hne Hrest. split; [|done].
  unfold get_unsigned_long. rewrite (read_argv_Some it _ _ Hrange Hargv). simpl.
  unfold strtoul. rewrite strtol_decomposed by done.
  apply String.eqb_neq in Hne. rewrite Hne.
  pose proof (decimal_nonneg ds Hds) as Hnonneg.
  assert (Z.abs (signed sg ds) = decimal ds) as ->.
  { unfold signed. destruct (String.eqb sg "-"); lia. }
  destruct (Z.leb_spec (decimal ds) (2 ^ LONG_BITS - 1)) as [Hfit|]; [|done].
  f_equal. unfold signed. destruct (String.eqb sg "-"); simpl.
  - destruct (Z.ltb_spec 0 (decimal ds)) as [Hpos|Hzero].
    + symmetry. apply (Z.mod_unique _ _ (-1)); lia.
    + assert (decimal ds = 0) as -> by lia. apply Z.mod_0_l. lia.
  - apply Z.mod_small. lia.
Qed.

Lemma take_word_app (w rest : string) :
  all_of (λ c, negb (isspace c)) w = true →
  rest = EmptyString ∨ head_is isspace rest = true →
  take_word (w +:+ rest) = w.
Proof.
  intros Hw Hrest. induction w as [|c w IH].
  - rewrite string_app_nil. destruct Hrest as [->|Hrest]; [done|].
    destruct rest as [|c rest]; [done|]. simpl in *. by rewrite Hrest.
  - simpl in Hw. apply andb_true_iff in Hw as [Hc Hw].
    rewrite string_app_cons. simpl. apply negb_true_iff in Hc. rewrite Hc.
    by rewrite IH.
Qed.

(** X17. The generic [get<T>] at [T = std::string] returns the first word
    of the argument: white space in front is skipped and the word ends at
    the next white space. It never throws: on an argument of white space
    only (or an empty one) it returns the empty string, where [get<int>]
    raises [std::invalid_argument]. *)
Theorem get_string_first_word (it : commandlineinterpreter) (index : Z)
    (ws w rest : string) :
  0 ≤ index + 2 ≤ INT_MAX →
  argv_ it !! Z.to_nat (index + 2) = Some (ws +:+ w +:+ rest) →
  all_of isspace ws = true →
  all_of (λ c, negb (isspace c)) w = true →
  rest = EmptyString ∨ head_is isspace rest = true →
  (w = EmptyString → rest = EmptyString) →
  get_string it index = Ok w ∧
  (w = EmptyString → get_int it index = Throw invalid_argument).
Proof.
  intros Hrange Hargv Hws Hw Hrest Hmax. split.
  - unfold get_string. rewrite (read_argv_Some it _ _ Hrange Hargv). simpl.
    unfold mret, outcome_ret. f_equal. rewrite (skip_spaces_app _ _ Hws).
    rewrite skip_spaces_head; [by apply take_word_app|].
    destruct w as [|c w].
    + by rewrite (Hmax eq_refl).
    + simpl in Hw. apply andb_true_iff in Hw as [Hc _].
      rewrite string_app_cons. simpl. by apply negb_true_iff.
  - intros ->. rewrite (Hmax eq_refl) in Hargv.
    rewrite (get_int_stoi it index _ Hrange Hargv).
    apply (stoi_decomposed ws EmptyString EmptyString EmptyString);
      [done|by left|done..].
Qed.

(** ** The further properties at work on the sample application *)

Lemma run_returns_zero_only_on_success_witness :
  let it := add_interpreter ["prog"; "add"; "3"; "4"] in
  ∃ name k l c, 2 ≤ argc_ it ∧ argv_ it !! 1%nat = Some name ∧
    first_match add_heap it name k l c ∧
    command_base.argumentCount c = argc_ it - 2 ∧
    trace (run "Feb  5 2014" "12:00:00" add_heap it) = [CallRun l] ∧
    command_base.run c it = Ok true.
Proof.
  apply (run_returns_zero_only_on_success "Feb  5 2014" "12:00:00" add_heap
           (add_interpreter ["prog"; "add"; "3"; "4"])).
  reflexivity.
Defined.

Lemma run_fails_only_in_command_witness :
  let it := tool_interpreter ["prog"; "add"; "x3"; "4"] in
  (∃ code, result (run "Feb  5 2014" "12:00:00" tool_heap it) = Ok code ∧
           (code = 0 ∨ code = 1)) ∨
  ∃ name k l c, first_match tool_heap it name k l c ∧
    trace (run "Feb  5 2014" "12:00:00" tool_heap it) = [CallRun l] ∧
    ((∃ e, command_base.run c it = Throw e ∧
           result (run "Feb  5 2014" "12:00:00" tool_heap it) = Throw e) ∨
     (command_base.run c it = Fault ∧
      result (run "Feb  5 2014" "12:00:00" tool_heap it) = Fault)).
Proof.
  apply (run_fails_only_in_command "Feb  5 2014" "12:00:00" tool_heap
           (tool_interpreter ["prog"; "add"; "x3"; "4"])).
  - apply tool_live.
  - intros _. by eexists.
Defined.

Lemma tool_first_match_add (argv : list string) :
  first_match tool_heap (tool_interpreter argv) "add" 0 1%positive add_command.
Proof. apply first_match_head; [apply tool_registered_add | reflexivity]. Qed.

Lemma register_command_keeps_dispatch_witness :
  let it := tool_interpreter ["prog"; "add"; "3"; "4"] in
  trace (run "Feb  5 2014" "12:00:00" tool_heap it) = [CallRun 1%positive] ∧
  trace (run "Feb  5 2014" "12:00:00" tool_heap (register_command nullptr it))
    = [CallRun 1%positive] ∧
  result (run "Feb  5 2014" "12:00:00" tool_heap (register_command nullptr it))
  = outcome_map (λ b : bool, if b then 0 else 1)
      (command_base.run add_command (register_command nullptr it)).
Proof.
  apply (register_command_keeps_dispatch "Feb  5 2014" "12:00:00" tool_heap
           (tool_interpreter ["prog"; "add"; "3"; "4"]) nullptr "add" 0
           1%positive add_command).
  - vm_compute. discriminate.
  - reflexivity.
  - apply tool_first_match_add.
  - reflexivity.
Defined.

Lemma empty_live (h : heap) (argv : list string) : live h (main_interpreter argv).
Proof. intros k p Hk. by destruct k. Qed.

Lemma register_command_then_run_witness :
  let it := main_interpreter ["prog"; "add"; "3"; "4"] in
  result (run "Feb  5 2014" "12:00:00" add_heap it) = Ok 1 ∧
  invoked (trace (run "Feb  5 2014" "12:00:00" add_heap it)) = [] ∧
  run "Feb  5 2014" "12:00:00" add_heap (register_command (Some 1%positive) it)
  = MkM [CallRun 1%positive]
      (outcome_map (λ b : bool, if b then 0 else 1)
         (command_base.run add_command (register_command (Some 1%positive) it))).
Proof.
  apply (register_command_then_run "Feb  5 2014" "12:00:00" add_heap
           (main_interpreter ["prog"; "add"; "3"; "4"]) 1%positive add_command).
  - apply empty_live.
  - reflexivity.
  - intros k l' c' [Hk _]. by destruct k.
  - vm_compute. discriminate.
  - reflexivity.
  - reflexivity.
Defined.

Lemma register_command_extends_help_witness :
  let it := main_interpreter ["prog"] in
  result (help "Feb  5 2014" "12:00:00" add_heap
            (register_command (Some 1%positive) it)) = Ok tt ∧
  cout_text (trace (help "Feb  5 2014" "12:00:00" add_heap
                      (register_command (Some 1%positive) it)))
  = cout_text (trace (help "Feb  5 2014" "12:00:00" add_heap it))
    +:+ help_text_line add_command.
Proof.
  apply (register_command_extends_help "Feb  5 2014" "12:00:00" add_heap
           (main_interpreter ["prog"]) 1%positive add_command).
  - apply empty_live.
  - reflexivity.
Defined.

Lemma clear_returns_iff_all_null_witness :
  clear add_heap (add_interpreter ["prog"]) = Fault ∧
  destructor add_heap (add_interpreter ["prog"]) = Fault.
Proof.
  destruct (clear_returns_iff_all_null add_heap (add_interpreter ["prog"]))
    as (_ & _ & Hcommand & _).
  apply (Hcommand 1%positive). apply list_elem_of_here.
Defined.



Lemma get_within_arity_witness :
  let it := add_interpreter ["prog"; "add"; "3"; "4"] in
  ∃ s, argv_ it !! Z.to_nat (1 + 2) = Some s ∧
    get_with stoi it 1 = stoi s ∧
    get_int it 1 = stoi s ∧
    get_long 32 it 1 = stol 32 s ∧
    get_unsigned_long 32 it 1 = strtoul 32 s ∧
    get_unsigned_long_long it 1 = strtoul 64 s ∧
    get_string it 1 = Ok (take_word (skip_spaces s)).
Proof.
  apply (get_within_arity stoi 32 (add_interpreter ["prog"; "add"; "3"; "4"])
           add_command 1).
  - reflexivity.
  - vm_compute. discriminate.
  - reflexivity.
  - split; vm_compute; [discriminate|reflexivity].
Defined.

Lemma get_int_of_to_string_witness :
  let it := add_interpreter ["prog"; "add"; to_string (-2147483648); "4"] in
  (INT_MIN ≤ -2147483648 ≤ INT_MAX → get_int it 0 = Ok (-2147483648)) ∧
  (- 2 ^ (64 - 1) ≤ -2147483648 ≤ 2 ^ (64 - 1) - 1 →
   get_long 64 it 0 = Ok (-2147483648)).
Proof.
  apply (get_int_of_to_string 64
           (add_interpreter ["prog"; "add"; to_string (-2147483648); "4"])
           0 (-2147483648)).
  - vm_compute. split; discriminate.
  - reflexivity.
Defined.

Lemma get_long_extends_get_int_witness :
  let it := add_interpreter ["prog"; "add"; "3"; "4"] in
  (∀ v, get_int it 0 = Ok v → get_long 64 it 0 = Ok v) ∧
  (∀ v, get_long 64 it 0 = Ok v →
        get_int it 0 = Ok v ∨ get_int it 0 = Throw out_of_range) ∧
  (get_int it 0 = Throw invalid_argument ↔
   get_long 64 it 0 = Throw invalid_argument) ∧
  (get_int it 0 = Fault ↔ get_long 64 it 0 = Fault).
Proof.
  apply (get_long_extends_get_int 64 (add_interpreter ["prog"; "add"; "3"; "4"]) 0).
  vm_compute. discriminate.
Defined.

Lemma get_unsigned_long_wraps_negative_witness :
  let it := add_interpreter ["prog"; "add"; "-1"; "4"] in
  get_unsigned_long 32 it 0
  = (if decimal "1" <=? 2 ^ 32 - 1
     then Ok (if String.eqb "-" "-" && (0 <? decimal "1")
              then 2 ^ 32 - decimal "1" else decimal "1")
     else Throw out_of_range) ∧
  get_unsigned_long_long it 0 = get_unsigned_long 64 it 0.
Proof.
  apply (get_unsigned_long_wraps_negative 32
           (add_interpreter ["prog"; "add"; "-1"; "4"]) 0
           EmptyString "-" "1" EmptyString).
  - vm_compute. split; discriminate.
  - reflexivity.
  - reflexivity.
  - by right; right.
  - reflexivity.
  - discriminate.
  - reflexivity.
Defined.

(** [prog add -1 4], read as [unsigned long] of 32 bits. *)
Example get_unsigned_long_minus_one :
  get_unsigned_long 32 (add_interpreter ["prog"; "add"; "-1"; "4"]) 0
  = Ok 4294967295.
Proof. reflexivity. Qed.

Lemma get_string_first_word_witness :
  let it := add_interpreter ["prog"; "add"; " two words"; "4"] in
  get_string it 0 = Ok "two" ∧
  ("two" = EmptyString → get_int it 0 = Throw invalid_argument).
Proof.
  apply (get_string_first_word
           (add_interpreter ["prog"; "add"; " two words"; "4"]) 0
           " " "two" " words").
  - vm_compute. split; discriminate.
  - reflexivity.
  - reflexivity.
  - reflexivity.
  - by right.
  - discriminate.
Defined.
